(** * CamUsageWin: the consent-store reader and the list-view builder

    A shallow embedding of [CamUsageWin.cpp] (the helpers [ReplaceAll],
    [LeafName], [FtToLocalString], [RegGetQword], the loader
    [LoadConsentStore] and the renderer [ListView_Populate]) together with
    the properties of the acquisition and normalisation layer.

    Conventions.
    - [wchar_t] is a 16-bit code unit, kept as a [Z]; a [std::wstring] is a
      list of code units.  [L "text"] is the wide literal [L"text"].
    - [ULONGLONG], [DWORD], [WORD] and [LONG] are [Z]s; where the source
      narrows a value the wrap-around is written out.
    - The registry is a finite tree of keys; the Win32 calls of the source
      are functions over that tree which return the status code and the
      out-parameters.
    - [std::sort] is modelled by its contract (a relation between the input
      and the output range), since the contract is all the source relies on. *)

From Stdlib Require Import ZArith String Ascii Lia.
From stdpp Require Import base list sorting.

Set Warnings "-register-all".
Local Open Scope Z_scope.

(** ** Wide characters and wide strings *)

Abbreviation wchar_t := Z (only parsing).
Abbreviation wstring := (list wchar_t) (only parsing).

(** [L "abc"] is the wide string literal [L"abc"]. *)
Definition L (s : string) : wstring :=
  (fun a => Z.of_N (N_of_ascii a)) <$> list_ascii_of_string s.

Definition ch_hash : wchar_t := 35.       (* L'#'  *)
Definition ch_backslash : wchar_t := 92.  (* L'\\' *)
Definition ch_slash : wchar_t := 47.      (* L'/'  *)

(** ** Data model *)

Record CamRow := mkCamRow {
  kind : wstring;        (* "Packaged" | "Desktop" *)
  app : wstring;         (* App key or friendly name *)
  exe : wstring;         (* Full path for Desktop (NonPackaged) apps *)
  activeNow : bool;
  startFt : Z;           (* FILETIME (100ns since 1601), UTC *)
  stopFt : Z             (* FILETIME (0 => still active) *)
}.

(** ** Helpers *)

(** [std::replace] over a copy of [s]. *)
Definition ReplaceAll (s : wstring) (from to : wchar_t) : wstring :=
  (fun c => if c =? from then to else c) <$> s.

(** [std::wstring::find_last_of]: the largest index whose character is one
    of [chars]; [None] is [npos]. *)
Fixpoint find_last_of (s chars : wstring) : option nat :=
  match s with
  | [] => None
  | c :: s' =>
      match find_last_of s' chars with
      | Some p => Some (S p)
      | None => if bool_decide (c ∈ chars) then Some 0%nat else None
      end
  end.

(** [std::wstring::substr(pos)].  It raises [std::out_of_range] only when
    [pos] exceeds the size; [LeafName] calls it with [pos + 1] for an index
    [pos] of the string (see [find_last_of_lt]), so the suffix is all there
    is to model. *)
Definition substr (s : wstring) (pos : nat) : wstring := drop pos s.

Definition LeafName (path : wstring) : wstring :=
  match find_last_of path (L "\/") with
  | None => path
  | Some pos => substr path (pos + 1)
  end.

(** The two row-building blocks of [LoadConsentStore]: the body of the
    inner loop for a child of [NonPackaged] whose name is [n2], and the
    body of the [else] branch for a child named [subkey]. *)
Definition desktop_row (n2 : wstring) (start stop : Z) : CamRow :=
  let raw := n2 in
  let exe := ReplaceAll raw ch_hash ch_backslash in
  {| kind := L "Desktop";
     exe := exe;
     app := LeafName exe;
     startFt := start;
     stopFt := stop;
     activeNow := negb (start =? 0) && (stop =? 0) |}.

Definition packaged_row (subkey : wstring) (start stop : Z) : CamRow :=
  {| kind := L "Packaged";
     app := subkey;
     exe := L "";
     startFt := start;
     stopFt := stop;
     activeNow := negb (start =? 0) && (stop =? 0) |}.

(** The comparator handed to [std::sort] at the end of [LoadConsentStore].
    On [bool], [a > b] is [a && !b]. *)
Definition bool_gt (a b : bool) : bool := a && negb b.

Definition row_before (a b : CamRow) : bool :=
  if negb (Bool.eqb (activeNow a) (activeNow b))
  then bool_gt (activeNow a) (activeNow b)
  else startFt b <? startFt a.

(** ** Timestamp formatting *)

Record FILETIME := mkFILETIME { dwLowDateTime : Z; dwHighDateTime : Z }.

Record SYSTEMTIME := mkSYSTEMTIME {
  wYear : Z; wMonth : Z; wDayOfWeek : Z; wDay : Z;
  wHour : Z; wMinute : Z; wSecond : Z; wMilliseconds : Z
}.

(** The two calendar conversions of the operating system.  Each returns a
    [BOOL] and fills its out-parameter; [None] is [FALSE]. *)
Class Win32Time := {
  FileTimeToSystemTime : FILETIME → option SYSTEMTIME;
  SystemTimeToTzSpecificLocalTime : SYSTEMTIME → option SYSTEMTIME
}.

(** Narrowing to [DWORD] and the value a [WORD] field holds. *)
Definition DWORD_of (n : Z) : Z := n mod 2 ^ 32.
Definition WORD_of (n : Z) : Z := n mod 2 ^ 16.

(** Decimal digits of an unsigned value, most significant first. *)
Fixpoint utoa (fuel : nat) (n : Z) (acc : wstring) : wstring :=
  match fuel with
  | O => acc
  | S fuel' =>
      let acc' := (48 + n mod 10) :: acc in
      if n / 10 =? 0 then acc' else utoa fuel' (n / 10) acc'
  end.

(** The conversion [%0<width>u]: an [unsigned int] in decimal, padded on
    the left with ['0'] up to [width] characters (never truncated). *)
Definition fmt_u (width : nat) (n : Z) : wstring :=
  let d := utoa 10 (n mod 2 ^ 32) [] in
  replicate (width - length d) 48 ++ d.

(** The text of [L"%04u-%02u-%02u %02u:%02u:%02u"] for the six fields of a
    [SYSTEMTIME]; each [WORD] argument is promoted to [int]. *)
Definition format_systemtime (st : SYSTEMTIME) : wstring :=
  fmt_u 4 (WORD_of (wYear st)) ++ L "-" ++
  fmt_u 2 (WORD_of (wMonth st)) ++ L "-" ++
  fmt_u 2 (WORD_of (wDay st)) ++ L " " ++
  fmt_u 2 (WORD_of (wHour st)) ++ L ":" ++
  fmt_u 2 (WORD_of (wMinute st)) ++ L ":" ++
  fmt_u 2 (WORD_of (wSecond st)).

(** [swprintf_s] into a buffer of [sizeOfBuffer] characters: the text and
    its terminator must fit, otherwise the invalid-parameter handler ends
    the process ([None]). *)
Definition swprintf_s (sizeOfBuffer : nat) (text : wstring) : option wstring :=
  if decide (length text < sizeOfBuffer)%nat then Some text else None.

Definition FtToLocalString `{Win32Time} (ft : Z) : option wstring :=
  if ft =? 0 then Some (L "") else
  let ftUtc := {| dwLowDateTime := DWORD_of (Z.land ft 0xFFFFFFFF);
                  dwHighDateTime := DWORD_of (Z.shiftr ft 32) |} in
  match FileTimeToSystemTime ftUtc with
  | None => Some (L "")
  | Some stUtc =>
      match SystemTimeToTzSpecificLocalTime stUtc with
      | None => Some (L "")
      | Some stLocal => swprintf_s 64 (format_systemtime stLocal)
      end
  end.

(** ** The registry *)

Definition LONG := Z.
Definition ERROR_SUCCESS : LONG := 0.
Definition ERROR_FILE_NOT_FOUND : LONG := 2.
Definition ERROR_ACCESS_DENIED : LONG := 5.
Definition ERROR_MORE_DATA : LONG := 234.
Definition ERROR_NO_MORE_ITEMS : LONG := 259.
Definition ERROR_UNSUPPORTED_TYPE : LONG := 1630.

(** The data of a named value: 64-bit data (what [RRF_RT_QWORD] accepts),
    or data of any other type. *)
Inductive RegData :=
| REG_QWORD (v : Z)
| REG_OTHER.

(** A key: whether the caller is granted [KEY_READ] on it, its named
    values and its subkeys in enumeration order. *)
Inductive RegKey := mkRegKey {
  key_read : bool;
  key_values : list (wstring * RegData);
  key_subkeys : list (wstring * RegKey)
}.

(** [towlower] in the "C" locale, and [_wcsicmp] built on it. *)
Definition towlower (c : wchar_t) : wchar_t :=
  if (65 <=? c) && (c <=? 90) then c + 32 else c.

Fixpoint _wcsicmp (a b : wstring) : Z :=
  match a, b with
  | [], [] => 0
  | [], _ :: _ => -1
  | _ :: _, [] => 1
  | x :: a', y :: b' =>
      if towlower x =? towlower y then _wcsicmp a' b'
      else if towlower x <? towlower y then -1 else 1
  end.

(** Names of keys and values are matched without regard to case. *)
Definition reg_lookup {A} (name : wstring) (l : list (wstring * A)) : option A :=
  snd <$> List.find (fun e => _wcsicmp (fst e) name =? 0) l.

(** A subkey path is a sequence of key names separated by ['\\']. *)
Fixpoint split_on (sep : wchar_t) (s : wstring) : list wstring :=
  match s with
  | [] => [[]]
  | c :: s' =>
      if c =? sep then [] :: split_on sep s'
      else match split_on sep s' with
           | x :: r => (c :: x) :: r
           | [] => [[c]]
           end
  end.

Definition path_components (lpSubKey : wstring) : list wstring :=
  match lpSubKey with
  | [] => []
  | _ => split_on ch_backslash lpSubKey
  end.

Fixpoint descend (k : RegKey) (path : list wstring) : option RegKey :=
  match path with
  | [] => Some k
  | n :: rest =>
      match reg_lookup n (key_subkeys k) with
      | Some k' => descend k' rest
      | None => None
      end
  end.

(** [RegOpenKeyExW(hKey, lpSubKey, 0, KEY_READ, &h)]: [inr h] is
    [ERROR_SUCCESS] with the handle, [inl rc] any other status. *)
Definition RegOpenKeyExW (hKey : RegKey) (lpSubKey : wstring) : LONG + RegKey :=
  match descend hKey (path_components lpSubKey) with
  | None => inl ERROR_FILE_NOT_FOUND
  | Some k => if key_read k then inr k else inl ERROR_ACCESS_DENIED
  end.

(** What enumeration reports for one subkey when the name buffer holds
    [cchName] characters: the name, or [ERROR_MORE_DATA] when the name and
    its terminator do not fit. *)
Definition enum_entry (cchName : nat) (e : wstring * RegKey) : LONG + wstring :=
  if decide (length e.1 < cchName)%nat then inr e.1 else inl ERROR_MORE_DATA.

(** [RegEnumKeyExW(hKey, dwIndex, name, &cchName, ...)]: [inr name] is
    [ERROR_SUCCESS]; past the last subkey the status is
    [ERROR_NO_MORE_ITEMS]. *)
Definition RegEnumKeyExW (hKey : RegKey) (dwIndex : nat) (cchName : nat)
  : LONG + wstring :=
  match key_subkeys hKey !! dwIndex with
  | None => inl ERROR_NO_MORE_ITEMS
  | Some e => enum_entry cchName e
  end.

(** [RegGetValueW(hKey, nullptr, valueName, RRF_RT_QWORD, ...)] into a
    [ULONGLONG]. *)
Definition RegGetValueW_qword (hKey : RegKey) (valueName : wstring) : LONG + Z :=
  match reg_lookup valueName (key_values hKey) with
  | None => inl ERROR_FILE_NOT_FOUND
  | Some (REG_QWORD v) => inr (v mod 2 ^ 64)
  | Some REG_OTHER => inl ERROR_UNSUPPORTED_TYPE
  end.

(** [RegGetQword]: the result and the new content of the reference [out]. *)
Definition RegGetQword (hKey : RegKey) (valueName : wstring) (out : Z) : bool * Z :=
  match RegGetValueW_qword hKey valueName with
  | inr val => (true, val)
  | inl _ => (false, out)
  end.

Definition REG_WEBCAM_BASE : wstring :=
  L "Software\Microsoft\Windows\CurrentVersion\CapabilityAccessManager\ConsentStore\webcam".

(** ** The loader *)

(** Lines 125-139: read the two values of an opened child of
    [NonPackaged] and append its row. *)
Definition push_desktop (hItem : RegKey) (n2 : wstring) (out : list CamRow)
  : list CamRow :=
  let start := 0 in
  let stop := 0 in
  let start := snd (RegGetQword hItem (L "LastUsedTimeStart") start) in
  let stop := snd (RegGetQword hItem (L "LastUsedTimeStop") stop) in
  out ++ [desktop_row n2 start stop].

(** Lines 149-161: the same for a packaged child. *)
Definition push_packaged (hChild : RegKey) (subkey : wstring) (out : list CamRow)
  : list CamRow :=
  let start := 0 in
  let stop := 0 in
  let start := snd (RegGetQword hChild (L "LastUsedTimeStart") start) in
  let stop := snd (RegGetQword hChild (L "LastUsedTimeStop") stop) in
  out ++ [packaged_row subkey start stop].

(** The inner [while (true)] over the children of [NonPackaged].  One
    unit of [fuel] is one iteration; [None] is fuel exhausted. *)
Fixpoint enum_nonpackaged (fuel : nat) (hNp : RegKey) (idx2 : nat)
    (out : list CamRow) : option (list CamRow) :=
  match fuel with
  | O => None
  | S fuel' =>
      let r2 := RegEnumKeyExW hNp idx2 1024 in
      let idx2 := S idx2 in
      match r2 with
      | inl rc =>
          if rc =? ERROR_NO_MORE_ITEMS then Some out
          else enum_nonpackaged fuel' hNp idx2 out
      | inr n2 =>
          match RegOpenKeyExW hNp n2 with
          | inr hItem => enum_nonpackaged fuel' hNp idx2 (push_desktop hItem n2 out)
          | inl _ => enum_nonpackaged fuel' hNp idx2 out
          end
      end
  end.

(** The inner loop from its initial state ([idx2 = 0]); a key has finitely
    many children, and the loop spends one iteration on each and one on
    the end of the enumeration. *)
Definition enumerate_nonpackaged (hNp : RegKey) (out : list CamRow)
  : option (list CamRow) :=
  enum_nonpackaged (S (length (key_subkeys hNp))) hNp 0 out.

(** The outer [while (true)] over the children of the base key. *)
Fixpoint enum_base (fuel : nat) (hBase : RegKey) (index : nat)
    (out : list CamRow) : option (list CamRow) :=
  match fuel with
  | O => None
  | S fuel' =>
      let rr := RegEnumKeyExW hBase index 512 in
      let index := S index in
      match rr with
      | inl rc =>
          if rc =? ERROR_NO_MORE_ITEMS then Some out
          else enum_base fuel' hBase index out
      | inr name =>
          let subkey := name in
          if _wcsicmp subkey (L "NonPackaged") =? 0 then
            match RegOpenKeyExW hBase (L "NonPackaged") with
            | inr hNp =>
                out ← enumerate_nonpackaged hNp out;
                enum_base fuel' hBase index out
            | inl _ => enum_base fuel' hBase index out
            end
          else
            match RegOpenKeyExW hBase subkey with
            | inr hChild => enum_base fuel' hBase index (push_packaged hChild subkey out)
            | inl _ => enum_base fuel' hBase index out
            end
      end
  end.

(** The outer loop from its initial state ([index = 0], [out] cleared). *)
Definition enumerate_base (hBase : RegKey) : option (list CamRow) :=
  enum_base (S (length (key_subkeys hBase))) hBase 0 [].

(** ** [std::sort] *)

(** The contract of [std::sort(first, last, comp)]: the range afterwards
    holds the same elements, sorted with respect to [comp]: [comp] applied
    to a later element and an earlier one is [false].  The order of
    equivalent elements is not part of it. *)
Definition sorted_wrt {A} (comp : A → A → bool) (l : list A) : Prop :=
  ∀ i j x y, (i <= j)%nat → l !! i = Some x → l !! j = Some y → comp y x = false.

Definition std_sort_post {A} (comp : A → A → bool) (input output : list A) : Prop :=
  input ≡ₚ output ∧ sorted_wrt comp output.

(** What [std::sort] requires of [comp]: a strict weak ordering. *)
Record strict_weak_order {A} (comp : A → A → bool) : Prop := {
  swo_irrefl : ∀ a, comp a a = false;
  swo_trans : ∀ a b c, comp a b = true → comp b c = true → comp a c = true;
  swo_incomp_trans : ∀ a b c,
    comp a b = false → comp b a = false →
    comp b c = false → comp c b = false →
    comp a c = false ∧ comp c a = false
}.

(** [LoadConsentStore(out)] relates the registry and the content [out0]
    of [out] at the call to the content of [out] on return.  [out.clear()]
    comes first: when the base key does not open the vector is returned
    empty, otherwise the enumeration fills it from empty and [std::sort]
    rearranges it. *)
Inductive LoadConsentStore (hkcu : RegKey) (out0 : list CamRow)
  : list CamRow → Prop :=
| Load_no_store rc :
    RegOpenKeyExW hkcu REG_WEBCAM_BASE = inl rc →
    LoadConsentStore hkcu out0 []
| Load_sorted hBase rows out :
    RegOpenKeyExW hkcu REG_WEBCAM_BASE = inr hBase →
    enumerate_base hBase = Some rows →
    std_sort_post row_before rows out →
    LoadConsentStore hkcu out0 out.

(** ** The list view *)

(** The control in report mode: its items top to bottom, each item the
    texts of its subitems, one per column of [ListView_SetupColumns]
    (Kind, App, EXE, Active, Last Start, Last Stop). *)
Abbreviation LVITEM := (list wstring) (only parsing).
Abbreviation ListView := (list LVITEM) (only parsing).

Definition lv_columns : nat := 6.

Definition ListView_DeleteAllItems (hList : ListView) : ListView := [].

(** [ListView_InsertItem] with [mask = LVIF_TEXT]: the new item takes the
    position [iItem] (the end of the list when [iItem] is beyond it), its
    label is [pszText] and its other subitems are empty; the result is the
    position of the new item. *)
Definition ListView_InsertItem (hList : ListView) (iItem : nat) (pszText : wstring)
  : ListView * nat :=
  let idx := (iItem `min` length hList)%nat in
  (take idx hList ++ (<[0%nat := pszText]> (replicate lv_columns []))
     :: drop idx hList, idx).

Definition ListView_SetItemText (hList : ListView) (i iSubItem : nat)
    (pszText : wstring) : ListView :=
  alter (<[iSubItem := pszText]>) i hList.

(** The body of the range-[for] of [ListView_Populate]; [i] is the
    counter of inserted items. *)
Fixpoint populate_loop `{Win32Time} (src : list CamRow) (currentOnly : bool)
    (i : nat) (hList : ListView) : option ListView :=
  match src with
  | [] => Some hList
  | r :: src' =>
      if currentOnly && negb (activeNow r)
      then populate_loop src' currentOnly i hList
      else
        let active := if activeNow r then L "Yes" else L "No" in
        startS ← FtToLocalString (startFt r);
        stopS ← FtToLocalString (stopFt r);
        let '(hList, idx) := ListView_InsertItem hList i (kind r) in
        let hList := ListView_SetItemText hList idx 1 (app r) in
        let hList := ListView_SetItemText hList idx 2 (exe r) in
        let hList := ListView_SetItemText hList idx 3 active in
        let hList := ListView_SetItemText hList idx 4 startS in
        let hList := ListView_SetItemText hList idx 5 stopS in
        populate_loop src' currentOnly (S i) hList
  end.

Definition ListView_Populate `{Win32Time} (hList : ListView)
    (src : list CamRow) (currentOnly : bool) : option ListView :=
  populate_loop src currentOnly 0 (ListView_DeleteAllItems hList).

(** ** Vocabulary of the statements *)

(** The line of the list view that shows a row, given the two formatted
    timestamps. *)
Definition row_line (r : CamRow) (startS stopS : wstring) : LVITEM :=
  [kind r; app r; exe r; if activeNow r then L "Yes" else L "No"; startS; stopS].

(** The rows [ListView_Populate] lets through. *)
Definition shown (currentOnly : bool) (src : list CamRow) : list CamRow :=
  List.filter (fun r => negb (currentOnly && negb (activeNow r))) src.

(** The characters [LeafName] treats as path separators. *)
Definition is_sep (c : wchar_t) : Prop := c = ch_backslash ∨ c = ch_slash.

(** Re-encoding a path as a key name: the inverse substitution. *)
Definition encode_path (exe : wstring) : wstring :=
  ReplaceAll exe ch_backslash ch_hash.

(** A registry key name: any characters but the key separator. *)
Definition key_name (s : wstring) : Prop := ch_backslash ∉ s.

(** A textual field of exactly [n] decimal digits. *)
Definition digits (n : nat) (s : wstring) : Prop :=
  length s = n ∧ Forall (fun c => 48 <= c <= 57) s.

(** The value [RegGetQword] leaves in a variable that was initialised
    to 0. *)
Definition qword_or_zero (hKey : RegKey) (valueName : wstring) : Z :=
  match RegGetValueW_qword hKey valueName with
  | inr val => val
  | inl _ => 0
  end.

(** The rows one child of [NonPackaged] contributes. *)
Definition desktop_child (hNp : RegKey) (e : wstring * RegKey) : list CamRow :=
  match enum_entry 1024 e with
  | inl _ => []
  | inr n2 =>
      match RegOpenKeyExW hNp n2 with
      | inl _ => []
      | inr hItem =>
          [desktop_row n2 (qword_or_zero hItem (L "LastUsedTimeStart"))
                          (qword_or_zero hItem (L "LastUsedTimeStop"))]
      end
  end.

(** The rows one child of the base key contributes. *)
Definition base_child (hBase : RegKey) (e : wstring * RegKey) : list CamRow :=
  match enum_entry 512 e with
  | inl _ => []
  | inr subkey =>
      if _wcsicmp subkey (L "NonPackaged") =? 0 then
        match RegOpenKeyExW hBase (L "NonPackaged") with
        | inl _ => []
        | inr hNp => flat_map (desktop_child hNp) (key_subkeys hNp)
        end
      else
        match RegOpenKeyExW hBase subkey with
        | inl _ => []
        | inr hChild =>
            [packaged_row subkey (qword_or_zero hChild (L "LastUsedTimeStart"))
                                 (qword_or_zero hChild (L "LastUsedTimeStop"))]
        end
  end.

(** The order [std::sort] establishes, read on two positions of the
    range: an idle row never precedes an active one, and two rows of the
    same activity group come most recent start first. *)
Definition two_key_ordered (l : list CamRow) : Prop :=
  ∀ i j a b, (i < j)%nat → l !! i = Some a → l !! j = Some b →
    (activeNow b = true → activeNow a = true) ∧
    (activeNow a = activeNow b → startFt b <= startFt a).

(** The two fields the comparator looks at. *)
Definition sort_key (r : CamRow) : bool * Z := (activeNow r, startFt r).


(** [a] may stand before [b] in a sorted range. *)
Definition row_le (a b : CamRow) : Prop := row_before b a = false.

Definition key_le (k1 k2 : bool * Z) : Prop :=
  (k2.1 = true → k1.1 = true) ∧ (k1.1 = k2.1 → k2.2 <= k1.2).

(** The line a row is shown as. *)
Definition render `{Win32Time} (r : CamRow) : option LVITEM :=
  startS ← FtToLocalString (startFt r);
  stopS ← FtToLocalString (stopFt r);
  Some (row_line r startS stopS).

Definition shows `{Win32Time} (r : CamRow) (item : LVITEM) : Prop :=
  render r = Some item.

(** The lines whose Active column reads "Yes". *)
Definition active_line (item : LVITEM) : bool :=
  bool_decide (item !! 3%nat = Some (L "Yes")).

(** [leaf] is the final component of [path]: what follows its last
    separator, or all of it when it has none. *)
Definition final_component (path leaf : wstring) : Prop :=
  (Forall (fun c => ¬ is_sep c) path ∧ leaf = path) ∨
  (∃ dir c, is_sep c ∧ path = dir ++ c :: leaf ∧ Forall (fun c => ¬ is_sep c) leaf).

(** A row as one of the two blocks of [LoadConsentStore] builds it. *)
Definition row_origin (r : CamRow) : Prop :=
  (∃ n2 start stop, r = desktop_row n2 start stop) ∨
  (∃ subkey start stop, r = packaged_row subkey start stop).

(** The [FILETIME] that [FtToLocalString] assembles from [ft]. *)
Definition ftUtc_of (ft : Z) : FILETIME :=
  {| dwLowDateTime := DWORD_of (Z.land ft 0xFFFFFFFF);
     dwHighDateTime := DWORD_of (Z.shiftr ft 32) |}.

(** A calendar time whose year has four digits. *)
Definition calendar_time (st : SYSTEMTIME) : Prop :=
  1601 <= wYear st <= 9999 ∧ 1 <= wMonth st <= 12 ∧ 1 <= wDay st <= 31 ∧
  0 <= wHour st <= 23 ∧ 0 <= wMinute st <= 59 ∧ 0 <= wSecond st <= 59.

(** A text of the form YYYY-MM-DD HH:MM:SS. *)
Definition timestamp_text (s : wstring) : Prop :=
  ∃ YYYY MM DD hh mm ss,
    s = YYYY ++ L "-" ++ MM ++ L "-" ++ DD ++ L " " ++ hh ++ L ":" ++ mm ++ L ":" ++ ss ∧
    digits 4 YYYY ∧ digits 2 MM ∧ digits 2 DD ∧
    digits 2 hh ∧ digits 2 mm ∧ digits 2 ss.

(** ** Sample stores *)

Fixpoint nest (names : list wstring) (k : RegKey) : RegKey :=
  match names with
  | [] => k
  | n :: rest => mkRegKey true [] [(n, nest rest k)]
  end.

(** The current user's hive with [webcam] as the consent-store key. *)
Definition hkcu_with (webcam : RegKey) : RegKey :=
  nest (path_components REG_WEBCAM_BASE) webcam.

Definition usage (start stop : Z) : RegKey :=
  mkRegKey true [(L "LastUsedTimeStart", REG_QWORD start);
                 (L "LastUsedTimeStop", REG_QWORD stop)] [].

(** One packaged application that is using the camera and one desktop
    program that has stopped. *)
Definition sample_webcam : RegKey :=
  mkRegKey true []
    [(L "App1", usage 100 0);
     (L "NonPackaged", mkRegKey true [] [(L "C:#app.exe", usage 50 80)])].

Definition sample_rows : list CamRow :=
  [packaged_row (L "App1") 100 0; desktop_row (L "C:#app.exe") 50 80].

(** Two packaged applications that never used the camera. *)
Definition idle_webcam : RegKey :=
  mkRegKey true [] [(L "AppA", mkRegKey true [] []); (L "AppB", mkRegKey true [] [])].

Definition idle_rows : list CamRow :=
  [packaged_row (L "AppA") 0 0; packaged_row (L "AppB") 0 0].

(** A store with children that fail one way or another: a key the caller
    may not read, a name longer than the enumeration buffer, values that
    are absent or of another type. *)
Definition long_name : wstring := replicate 600 65.

Definition locked_child : wstring * RegKey :=
  (L "Locked", mkRegKey false [(L "LastUsedTimeStart", REG_QWORD 5)] []).

Definition long_child : wstring * RegKey := (long_name, usage 7 0).

Definition nostop_key : RegKey :=
  mkRegKey true [(L "LastUsedTimeStart", REG_QWORD 9)] [].

Definition locked_exe : wstring * RegKey :=
  (L "C:#locked.exe", mkRegKey false [] []).

Definition long_exe : wstring * RegKey := (replicate 1100 66, usage 3 0).

Definition cam_key : RegKey :=
  mkRegKey true [(L "LastUsedTimeStart", REG_OTHER);
                 (L "LastUsedTimeStop", REG_QWORD 40)] [].

Definition faulty_nonpackaged : RegKey :=
  mkRegKey true [] [locked_exe; long_exe; (L "C:#Tools#cam.exe", cam_key)].

Definition faulty_webcam : RegKey :=
  mkRegKey true []
    [locked_child;
     long_child;
     (L "NoStop", nostop_key);
     (L "nonpackaged", faulty_nonpackaged);
     (L "App1", usage 100 0)].

Definition faulty_rows : list CamRow :=
  [packaged_row (L "NoStop") 9 0;
   desktop_row (L "C:#Tools#cam.exe") 0 40;
   packaged_row (L "App1") 100 0].

(** A clock for the examples: the viewer is on UTC, every [FILETIME]
    below 2^63 falls on one fixed day, and the others are refused. *)
Definition sample_clock : Win32Time :=
  {| FileTimeToSystemTime ft :=
       if dwHighDateTime ft <? 2 ^ 31
       then Some (mkSYSTEMTIME 2024 1 4 18 9 30 5 0)
       else None;
     SystemTimeToTzSpecificLocalTime st := Some st |}.

(** ** The library's [std::sort]

    The GNU implementation of [std::sort] (libstdc++, [bits/stl_algo.h] and
    [bits/stl_heap.h]): an introsort, that is a quicksort on ranges of more
    than 16 elements which falls back on a heap sort when it has divided
    too often, followed by an insertion sort. *)

Section StdSort.
Context {A : Type} (comp : A → A → bool).









(** *** The heap *)












(** *** Insertion *)











End StdSort.






(** ** The calendar of the operating system *)

(** [FileTimeToSystemTime] as documented: the value counts intervals of
    100 nanoseconds since 1601-01-01 00:00 UTC, in the Gregorian calendar;
    the call fails for a value of 2^63 or more.  A viewer whose time zone
    is UTC has local time equal to UTC. *)
Definition is_leap_year (y : Z) : bool :=
  ((y mod 4 =? 0) && negb (y mod 100 =? 0)) || (y mod 400 =? 0).

(** The year of day [d] (days since 1601-01-01) and the day within it,
    both counted from 0 for the day. *)
Definition year_of_day (d : Z) : Z * Z :=
  let n400 := d / 146097 in
  let d := d mod 146097 in
  let n100 := Z.min (d / 36524) 3 in
  let d := d - n100 * 36524 in
  let n4 := d / 1461 in
  let d := d mod 1461 in
  let n1 := Z.min (d / 365) 3 in
  let d := d - n1 * 365 in
  (1601 + 400 * n400 + 100 * n100 + 4 * n4 + n1, d).

Fixpoint month_of_day (lengths : list Z) (m d : Z) : Z * Z :=
  match lengths with
  | [] => (m, d + 1)
  | l :: rest => if d <? l then (m, d + 1) else month_of_day rest (m + 1) (d - l)
  end.

Definition month_lengths (leap : bool) : list Z :=
  [31; if leap then 29 else 28; 31; 30; 31; 30; 31; 31; 30; 31; 30; 31].

Definition calendar_of_filetime (ft : FILETIME) : option SYSTEMTIME :=
  let t := dwLowDateTime ft + 2 ^ 32 * dwHighDateTime ft in
  if 2 ^ 63 <=? t then None else
  let ms := t / 10000 in
  let secs := ms / 1000 in
  let days := secs / 86400 in
  let '(y, d) := year_of_day days in
  let '(m, dd) := month_of_day (month_lengths (is_leap_year y)) 1 d in
  Some {| wYear := y; wMonth := m; wDayOfWeek := (days + 1) mod 7; wDay := dd;
          wHour := secs / 3600 mod 24; wMinute := secs / 60 mod 60;
          wSecond := secs mod 60; wMilliseconds := ms mod 1000 |}.

Definition utc_viewer : Win32Time :=
  {| FileTimeToSystemTime := calendar_of_filetime;
     SystemTimeToTzSpecificLocalTime st := Some st |}.

(** ** The window *)

Definition IDC_LIST : Z := 1001.
Definition IDC_REFRESH : Z := 1002.
Definition IDC_CURONLY : Z := 1003.
Definition IDC_STATUS : Z := 1004.

Definition WM_CREATE : Z := 0x0001.
Definition WM_DESTROY : Z := 0x0002.
Definition WM_SIZE : Z := 0x0005.
Definition WM_COMMAND : Z := 0x0111.

Definition BST_CHECKED : Z := 1.

(** The low-order word of a [WPARAM]. *)
Definition LOWORD (w : Z) : Z := Z.land w 0xFFFF.

(** The value an [int] holds after an arithmetic result [z]. *)
Definition int_of (z : Z) : Z := (z + 2 ^ 31) mod 2 ^ 32 - 2 ^ 31.

Record RECT := mkRECT { left : Z; top : Z; right : Z; bottom : Z }.

(** The arguments of one [MoveWindow] call. *)
Record Placement := mkPlacement { X : Z; Y : Z; nWidth : Z; nHeight : Z }.

(** Where [ResizeLayout] puts the button, the check box and the list. *)
Record Layout := mkLayout {
  at_BtnRefresh : Placement;
  at_ChkCurrent : Placement;
  at_List : Placement
}.

(** [ResizeLayout]: [rc] is what [GetClientRect] reports for the window
    and [rcStatus] what [GetWindowRect] reports for the status bar once it
    has handled [WM_SIZE]. *)
Definition ResizeLayout (rc rcStatus : RECT) : Layout :=
  let sbHeight := int_of (bottom rcStatus - top rcStatus) in
  let padding := 8 in
  let btnW := 100 in
  let btnH := 28 in
  let chkW := 140 in
  let chkH := 24 in
  let topBarH := int_of (btnH + int_of (padding * 2)) in
  let listY := topBarH in
  let listH := int_of (int_of (bottom rc - listY) - sbHeight) in
  {| at_BtnRefresh := mkPlacement padding padding btnW btnH;
     at_ChkCurrent :=
       mkPlacement (int_of (int_of (padding + btnW) + 10)) (int_of (padding + 2))
                   chkW chkH;
     at_List := mkPlacement 0 listY (int_of (right rc - left rc)) listH |}.

(** What the procedures of the window read from their surroundings when
    they run: the registry, the check state of the "Current only" box
    ([Button_GetCheck]) and the two rectangles of [ResizeLayout]. *)
Record Env := mkEnv {
  hkcu : RegKey;
  check : Z;
  rcClient : RECT;
  rcStatus : RECT
}.

(** The state the procedures act on: the global [g_rows], the items of the
    list view [g_hList], the text of the status bar [g_hStatus], the places
    of the three controls and the exit code given to [PostQuitMessage].
    Window handles, styles and the columns of the list view are not
    tracked. *)
Record AppState := mkAppState {
  g_rows : list CamRow;
  list_items : ListView;
  status_text : wstring;
  placed : option Layout;
  quit_code : option Z
}.

(** [DoRefresh]: load, read the check box, fill the list view, set the
    status text. *)
Inductive DoRefresh `{Win32Time} (env : Env) (st : AppState) : AppState → Prop :=
| DoRefresh_done rows items :
    LoadConsentStore (hkcu env) (g_rows st) rows →
    ListView_Populate (list_items st) rows (check env =? BST_CHECKED) = Some items →
    DoRefresh env st
      {| g_rows := rows;
         list_items := items;
         status_text := L "Ready - Bob Paydar";
         placed := placed st;
         quit_code := quit_code st |}.

(** [WndProc] on the message [msg] with [wParam]: the state afterwards and
    the result, [None] for the result of [DefWindowProcW].  On [WM_CREATE]
    the list view is a new control, whose items [InitListView] deletes. *)
Inductive WndProc `{Win32Time} (env : Env) (st : AppState) (msg wParam : Z)
  : AppState → option Z → Prop :=
| Wnd_create st' :
    msg = WM_CREATE →
    DoRefresh env
      {| g_rows := g_rows st;
         list_items := ListView_DeleteAllItems [];
         status_text := [];
         placed := Some (ResizeLayout (rcClient env) (rcStatus env));
         quit_code := quit_code st |} st' →
    WndProc env st msg wParam st' (Some 0)
| Wnd_size :
    msg = WM_SIZE →
    WndProc env st msg wParam
      {| g_rows := g_rows st;
         list_items := list_items st;
         status_text := status_text st;
         placed := Some (ResizeLayout (rcClient env) (rcStatus env));
         quit_code := quit_code st |} (Some 0)
| Wnd_command st' :
    msg = WM_COMMAND →
    LOWORD wParam = IDC_REFRESH ∨ LOWORD wParam = IDC_CURONLY →
    DoRefresh env st st' →
    WndProc env st msg wParam st' (Some 0)
| Wnd_command_other :
    msg = WM_COMMAND →
    LOWORD wParam ≠ IDC_REFRESH → LOWORD wParam ≠ IDC_CURONLY →
    WndProc env st msg wParam st None
| Wnd_destroy :
    msg = WM_DESTROY →
    WndProc env st msg wParam
      {| g_rows := g_rows st;
         list_items := list_items st;
         status_text := status_text st;
         placed := placed st;
         quit_code := Some 0 |} (Some 0)
| Wnd_default :
    msg ≠ WM_CREATE → msg ≠ WM_SIZE → msg ≠ WM_COMMAND → msg ≠ WM_DESTROY →
    WndProc env st msg wParam st None.

(** The states of a window: the one [WM_CREATE] leaves, and those later
    messages lead to, whatever the surroundings are at each message. *)
Inductive window_state `{Win32Time} : AppState → Prop :=
| window_created env st wParam st' res :
    WndProc env st WM_CREATE wParam st' res → window_state st'
| window_message env st msg wParam st' res :
    window_state st → WndProc env st msg wParam st' res → window_state st'.

(** ** Vocabulary of the further statements *)

(** The list view shows the rows [rows] under the filter [currentOnly]. *)
Definition view_of `{Win32Time} (rows : list CamRow) (currentOnly : bool)
    (items : ListView) : Prop :=
  Forall2 shows (shown currentOnly rows) items.

(** A row as the loader builds it from the keys of an opened base key. *)
Definition row_of_store (hBase : RegKey) (r : CamRow) : Prop :=
  (∃ e hChild,
     e ∈ key_subkeys hBase ∧ _wcsicmp e.1 (L "NonPackaged") ≠ 0 ∧
     RegOpenKeyExW hBase e.1 = inr hChild ∧
     r = packaged_row e.1 (qword_or_zero hChild (L "LastUsedTimeStart"))
                          (qword_or_zero hChild (L "LastUsedTimeStop"))) ∨
  (∃ hNp e hItem,
     RegOpenKeyExW hBase (L "NonPackaged") = inr hNp ∧
     e ∈ key_subkeys hNp ∧
     RegOpenKeyExW hNp e.1 = inr hItem ∧
     r = desktop_row e.1 (qword_or_zero hItem (L "LastUsedTimeStart"))
                         (qword_or_zero hItem (L "LastUsedTimeStop"))).

(** A rectangle and a status bar of a window of ordinary size: the client
    area starts at the origin and no coordinate is near the limits of
    [int]. *)
Definition client_rect (rc : RECT) : Prop :=
  left rc = 0 ∧ top rc = 0 ∧ 0 <= right rc < 2 ^ 30 ∧ 0 <= bottom rc < 2 ^ 30.

Definition screen_rect (rc : RECT) : Prop :=
  - 2 ^ 29 < top rc <= bottom rc ∧ bottom rc < 2 ^ 29.

(** What holds of a window at all times: its rows are in the order of
    the sort and were built by the loader, its list view shows these rows
    under one of the two filters, and its status bar reads "Ready". *)
Definition shows_its_rows `{Win32Time} (st : AppState) : Prop :=
  two_key_ordered (g_rows st) ∧
  Forall row_origin (g_rows st) ∧
  (∃ currentOnly, view_of (g_rows st) currentOnly (list_items st)) ∧
  status_text st = L "Ready - Bob Paydar".

Definition sample_env : Env :=
  {| hkcu := hkcu_with sample_webcam;
     check := BST_CHECKED;
     rcClient := mkRECT 0 0 964 521;
     rcStatus := mkRECT 100 621 1064 643 |}.

Definition new_window : AppState :=
  {| g_rows := []; list_items := []; status_text := []; placed := None;
     quit_code := None |}.

(** The sample window right after [WM_CREATE], with the filter on and the
    sample clock. *)
Definition sample_created : AppState :=
  {| g_rows := sample_rows;
     list_items :=
       [[L "Packaged"; L "App1"; []; L "Yes"; L "2024-01-18 09:30:05"; []]];
     status_text := L "Ready - Bob Paydar";
     placed := Some (ResizeLayout (mkRECT 0 0 964 521) (mkRECT 100 621 1064 643));
     quit_code := None |}.

(** The sample store refreshed with the filter on, by the sample clock. *)
Definition sample_refreshed : AppState :=
  {| g_rows := sample_rows;
     list_items :=
       [[L "Packaged"; L "App1"; []; L "Yes"; L "2024-01-18 09:30:05"; []]];
     status_text := L "Ready - Bob Paydar";
     placed := None;
     quit_code := None |}.

(** * Properties *)

(** ** The string helpers *)

Lemma ReplaceAll_length s from to : length (ReplaceAll s from to) = length s.
Proof. unfold ReplaceAll. by rewrite length_fmap. Qed.

Lemma ReplaceAll_lookup s from to (i : nat) :
  ReplaceAll s from to !! i =
  (fun c => if c =? from then to else c) <$> s !! i.
Proof. unfold ReplaceAll. by rewrite list_lookup_fmap. Qed.

(** After the substitution no [from] is left, whatever the string. *)
Lemma ReplaceAll_removes s from to : from ≠ to → from ∉ ReplaceAll s from to.
Proof.
  intros Hne Hin. unfold ReplaceAll in Hin.
  apply list_elem_of_fmap in Hin as (c & Hc & _).
  destruct (Z.eqb_spec c from); congruence.
Qed.

(** Substituting back restores the string exactly when it held no [to]. *)
Lemma ReplaceAll_inverse s from to :
  ReplaceAll (ReplaceAll s from to) to from = s ↔ (from = to ∨ to ∉ s).
Proof.
  unfold ReplaceAll. induction s as [|c s IH]; simpl.
  - split; [|done]. intros _. right. apply not_elem_of_nil.
  - split.
    + intros Heq. injection Heq as Hc Hs.
      destruct (decide (from = to)) as [|Hft]; [by left|]. right.
      apply IH in Hs as [?|Hs]; [done|].
      rewrite not_elem_of_cons. split; [|done]. intros <-.
      destruct (Z.eqb_spec to from); [done|].
      rewrite Z.eqb_refl in Hc. done.
    + intros [->|Hnot].
      * f_equal.
        -- destruct (Z.eqb_spec c to) as [->|?]; [by rewrite Z.eqb_refl|].
           by destruct (Z.eqb_spec c to).
        -- apply IH. by left.
      * apply not_elem_of_cons in Hnot as [Hct Hs]. f_equal.
        -- destruct (Z.eqb_spec c from) as [->|?]; [by rewrite Z.eqb_refl|].
           by destruct (Z.eqb_spec c to).
        -- apply IH. by right.
Qed.

(** An index returned by [find_last_of] is an index of the string, so the
    call [substr(pos + 1)] of [LeafName] is within range. *)
Lemma find_last_of_lt s chars pos :
  find_last_of s chars = Some pos → (pos < length s)%nat.
Proof.
  revert pos. induction s as [|c s IH]; intros pos; simpl; [done|].
  destruct (find_last_of s chars) as [p|] eqn:E.
  - intros [= <-]. specialize (IH p eq_refl). lia.
  - case_bool_decide; [|done]. intros [= <-]. lia.
Qed.

Lemma find_last_of_None s chars :
  find_last_of s chars = None ↔ Forall (fun c => c ∉ chars) s.
Proof.
  induction s as [|c s IH]; simpl; [by split|].
  destruct (find_last_of s chars) as [p|] eqn:E.
  - split; [done|]. intros [_ Hs]%Forall_cons. by apply IH in Hs.
  - case_bool_decide as Hc.
    + split; [done|]. by intros [? _]%Forall_cons.
    + split; [|done]. intros _. constructor; [done|]. by apply IH.
Qed.

(** The position found splits the string at its last character of [chars]. *)
Lemma find_last_of_Some s chars pos :
  find_last_of s chars = Some pos →
  ∃ c, s = take pos s ++ c :: drop (S pos) s ∧ c ∈ chars ∧
       Forall (fun c => c ∉ chars) (drop (S pos) s).
Proof.
  revert pos. induction s as [|c s IH]; intros pos; simpl; [done|].
  destruct (find_last_of s chars) as [p|] eqn:E.
  - intros [= <-]. destruct (IH p eq_refl) as (c' & Hs & Hc & Hrest).
    exists c'. simpl. split_and!; [by f_equal|done..].
  - case_bool_decide as Hc; [|done]. intros [= <-]. exists c. simpl.
    rewrite drop_0. split_and!; [done..|]. by apply find_last_of_None.
Qed.

Lemma elem_of_seps c : c ∈ L "\/" ↔ is_sep c.
Proof.
  change (L "\/") with [ch_backslash; ch_slash]. unfold is_sep.
  rewrite !elem_of_cons, elem_of_nil. tauto.
Qed.

(** [LeafName] returns the text after the last separator, or the whole
    string when there is none. *)
Lemma LeafName_spec path :
  (Forall (fun c => ¬ is_sep c) path ∧ LeafName path = path) ∨
  (∃ dir c, is_sep c ∧ path = dir ++ c :: LeafName path ∧
            Forall (fun c => ¬ is_sep c) (LeafName path)).
Proof.
  unfold LeafName. destruct (find_last_of path (L "\/")) as [pos|] eqn:E.
  - right. apply find_last_of_Some in E as (c & Hs & Hc & Hrest).
    exists (take pos path), c. unfold substr.
    replace (pos + 1)%nat with (S pos) by lia.
    split_and!; [by apply elem_of_seps|done|].
    eapply Forall_impl; [exact Hrest|]. intros x Hx. by rewrite <- elem_of_seps.
  - left. apply find_last_of_None in E. split; [|done].
    eapply Forall_impl; [exact E|]. intros x Hx. by rewrite <- elem_of_seps.
Qed.

Lemma LeafName_no_sep path : Forall (fun c => ¬ is_sep c) (LeafName path).
Proof. destruct (LeafName_spec path) as [[H ->]|(? & ? & _ & _ & H)]; done. Qed.

(** ** Formatting *)

Lemma utoa_length_le fuel n acc (k : nat) :
  0 <= n < 10 ^ Z.of_nat k → (1 <= k <= fuel)%nat →
  (length acc < length (utoa fuel n acc) <= length acc + k)%nat.
Proof.
  revert n acc k. induction fuel as [|fuel IH]; intros n acc k Hn Hk; [lia|].
  simpl. destruct (Z.eqb_spec (n / 10) 0) as [Hq|Hq]; simpl; [lia|].
  destruct k as [|[|k]]; [lia| |].
  - exfalso. apply Hq. apply Z.div_small. simpl in Hn. lia.
  - specialize (IH (n / 10) ((48 + n mod 10) :: acc) (S k)).
    simpl length in IH.
    assert (0 <= n / 10 < 10 ^ Z.of_nat (S k)).
    { split; [apply Z.div_pos; lia|]. apply Z.div_lt_upper_bound; [lia|].
      replace (Z.of_nat (S (S k))) with (Z.succ (Z.of_nat (S k))) in Hn by lia.
      rewrite Z.pow_succ_r in Hn by lia. lia. }
    specialize (IH ltac:(done) ltac:(lia)). lia.
Qed.

Lemma utoa_digits fuel n acc :
  0 <= n → Forall (fun c => 48 <= c <= 57) acc →
  Forall (fun c => 48 <= c <= 57) (utoa fuel n acc).
Proof.
  revert n acc. induction fuel as [|fuel IH]; intros n acc Hn Hacc; [done|].
  simpl.
  assert (Forall (fun c => 48 <= c <= 57) ((48 + n mod 10) :: acc)).
  { constructor; [|done]. pose proof (Z.mod_pos_bound n 10). lia. }
  destruct (n / 10 =? 0); [done|]. apply IH; [|done]. apply Z.div_pos; lia.
Qed.

(** A value below [10 ^ width] fills its field exactly. *)
Lemma fmt_u_digits (width : nat) n :
  (1 <= width <= 9)%nat → 0 <= n < 10 ^ Z.of_nat width →
  digits width (fmt_u width n).
Proof.
  intros Hw Hn. unfold digits, fmt_u.
  assert (n mod 2 ^ 32 = n) as ->.
  { apply Z.mod_small. split; [lia|].
    assert (10 ^ Z.of_nat width <= 10 ^ 9) by (apply Z.pow_le_mono_r; lia).
    eapply Z.lt_le_trans; [apply Hn|]. etrans; [done|]. apply Z.leb_le. reflexivity. }
  pose proof (utoa_length_le 10 n [] width Hn ltac:(lia)) as Hlen.
  change (length (@nil Z)) with 0%nat in Hlen. split.
  - rewrite length_app, length_replicate. lia.
  - apply Forall_app. split.
    + apply Forall_replicate. lia.
    + apply utoa_digits; [lia|constructor].
Qed.

(** A [WORD] never needs more than five digits. *)
Lemma fmt_u_WORD_length (width : nat) x :
  (length (fmt_u width (WORD_of x)) <= width `max` 5)%nat.
Proof.
  unfold fmt_u, WORD_of.
  assert (0 <= x mod 2 ^ 16 < 2 ^ 16) as Hx by (apply Z.mod_pos_bound; lia).
  rewrite (Z.mod_small (x mod 2 ^ 16)) by lia.
  pose proof (utoa_length_le 10 (x mod 2 ^ 16) [] 5 ltac:(lia) ltac:(lia)) as Hlen.
  change (length (@nil Z)) with 0%nat in Hlen.
  rewrite length_app, length_replicate. lia.
Qed.

(** The formatted text always fits the 64-character buffer of
    [FtToLocalString]. *)
Lemma format_systemtime_fits st : (length (format_systemtime st) < 64)%nat.
Proof.
  unfold format_systemtime. rewrite !length_app.
  pose proof (fmt_u_WORD_length 4 (wYear st)).
  pose proof (fmt_u_WORD_length 2 (wMonth st)).
  pose proof (fmt_u_WORD_length 2 (wDay st)).
  pose proof (fmt_u_WORD_length 2 (wHour st)).
  pose proof (fmt_u_WORD_length 2 (wMinute st)).
  pose proof (fmt_u_WORD_length 2 (wSecond st)).
  change (length (L "-")) with 1%nat. change (length (L " ")) with 1%nat.
  change (length (L ":")) with 1%nat. lia.
Qed.

(** For a calendar time with a four-digit year every field fills its
    width exactly. *)
Lemma format_calendar_time st :
  calendar_time st → timestamp_text (format_systemtime st).
Proof.
  intros (HY & HM & HD & Hh & Hm & Hs).
  assert (∀ x, 0 <= x <= 9999 → WORD_of x = x) as Hword
    by (intros x Hx; apply Z.mod_small; lia).
  exists (fmt_u 4 (WORD_of (wYear st))), (fmt_u 2 (WORD_of (wMonth st))),
    (fmt_u 2 (WORD_of (wDay st))), (fmt_u 2 (WORD_of (wHour st))),
    (fmt_u 2 (WORD_of (wMinute st))), (fmt_u 2 (WORD_of (wSecond st))).
  split; [reflexivity|].
  rewrite !Hword by lia.
  split_and!; apply fmt_u_digits; simpl; lia.
Qed.

Lemma swprintf_s_fits cap text :
  (length text < cap)%nat → swprintf_s cap text = Some text.
Proof. intros. unfold swprintf_s. by case_decide. Qed.

(** The two halves of the [FILETIME] hold the whole 64-bit value. *)
Lemma ftUtc_of_whole ft :
  0 <= ft < 2 ^ 64 →
  dwLowDateTime (ftUtc_of ft) + 2 ^ 32 * dwHighDateTime (ftUtc_of ft) = ft.
Proof.
  intros Hft. unfold ftUtc_of, DWORD_of. simpl dwLowDateTime. simpl dwHighDateTime.
  change 0xFFFFFFFF with (Z.ones 32). rewrite Z.land_ones by lia.
  rewrite Z.shiftr_div_pow2 by lia.
  rewrite Z.mod_mod by lia.
  rewrite (Z.mod_small (ft / 2 ^ 32)).
  - pose proof (Z.div_mod ft (2 ^ 32)). lia.
  - split; [apply Z.div_pos; lia|]. apply Z.div_lt_upper_bound; lia.
Qed.

Section Formatting.
Context `{Win32Time}.

(** [FtToLocalString] returns a string for every input: none of its
    paths reaches the fault of [swprintf_s]. *)
Lemma FtToLocalString_total ft : is_Some (FtToLocalString ft).
Proof.
  unfold FtToLocalString. destruct (ft =? 0); [done|].
  destruct (FileTimeToSystemTime _) as [stUtc|]; [|done].
  destruct (SystemTimeToTzSpecificLocalTime _) as [stLocal|]; [|done].
  rewrite swprintf_s_fits; [done|apply format_systemtime_fits].
Qed.

Lemma FtToLocalString_zero : FtToLocalString 0 = Some [].
Proof. reflexivity. Qed.
End Formatting.

(** ** Enumeration *)

Lemma RegGetQword_snd hKey valueName :
  snd (RegGetQword hKey valueName 0) = qword_or_zero hKey valueName.
Proof.
  unfold RegGetQword, qword_or_zero. by destruct (RegGetValueW_qword _ _).
Qed.

Lemma push_desktop_eq hItem n2 out :
  push_desktop hItem n2 out =
  out ++ [desktop_row n2 (qword_or_zero hItem (L "LastUsedTimeStart"))
                         (qword_or_zero hItem (L "LastUsedTimeStop"))].
Proof. unfold push_desktop. cbv zeta. by rewrite !RegGetQword_snd. Qed.

Lemma push_packaged_eq hChild subkey out :
  push_packaged hChild subkey out =
  out ++ [packaged_row subkey (qword_or_zero hChild (L "LastUsedTimeStart"))
                              (qword_or_zero hChild (L "LastUsedTimeStop"))].
Proof. unfold push_packaged. cbv zeta. by rewrite !RegGetQword_snd. Qed.

(** An entry that cannot be enumerated never reports the end of the
    enumeration. *)
Lemma enum_entry_inl cch e rc :
  enum_entry cch e = inl rc → (rc =? ERROR_NO_MORE_ITEMS) = false.
Proof. unfold enum_entry. case_decide; [done|]. by intros [= <-]. Qed.

(** The inner loop ends whenever its fuel exceeds the number of children
    left, and then it has appended the rows of each of them in turn. *)
Lemma enum_nonpackaged_spec fuel hNp idx2 out :
  (length (key_subkeys hNp) - idx2 < fuel)%nat →
  enum_nonpackaged fuel hNp idx2 out =
  Some (out ++ flat_map (desktop_child hNp) (drop idx2 (key_subkeys hNp))).
Proof.
  revert idx2 out. induction fuel as [|fuel IH]; intros idx2 out Hfuel; [lia|].
  simpl. unfold RegEnumKeyExW.
  destruct (key_subkeys hNp !! idx2) as [e|] eqn:He.
  - rewrite (drop_S _ _ _ He). simpl. unfold desktop_child at 1.
    pose proof (lookup_lt_Some _ _ _ He).
    destruct (enum_entry 1024 e) as [rc|n2] eqn:Ee.
    + rewrite (enum_entry_inl _ _ _ Ee). apply IH. lia.
    + destruct (RegOpenKeyExW hNp n2) as [rc|hItem].
      * apply IH. lia.
      * rewrite IH by lia. rewrite push_desktop_eq.
        by rewrite <- app_assoc.
  - apply lookup_ge_None in He. rewrite drop_ge by done. simpl.
    by rewrite app_nil_r.
Qed.

Local Opaque enum_nonpackaged.

Lemma enum_base_spec fuel hBase index out :
  (length (key_subkeys hBase) - index < fuel)%nat →
  enum_base fuel hBase index out =
  Some (out ++ flat_map (base_child hBase) (drop index (key_subkeys hBase))).
Proof.
  revert index out. induction fuel as [|fuel IH]; intros index out Hfuel; [lia|].
  simpl. unfold RegEnumKeyExW.
  destruct (key_subkeys hBase !! index) as [e|] eqn:He.
  - rewrite (drop_S _ _ _ He). simpl. unfold base_child at 1.
    pose proof (lookup_lt_Some _ _ _ He).
    destruct (enum_entry 512 e) as [rc|subkey] eqn:Ee.
    + rewrite (enum_entry_inl _ _ _ Ee). apply IH. lia.
    + destruct (_wcsicmp subkey (L "NonPackaged") =? 0).
      * destruct (RegOpenKeyExW hBase (L "NonPackaged")) as [rc|hNp].
        -- apply IH. lia.
        -- unfold enumerate_nonpackaged.
           rewrite enum_nonpackaged_spec by lia. simpl. rewrite drop_0.
           rewrite IH by lia. by rewrite <- app_assoc.
      * destruct (RegOpenKeyExW hBase subkey) as [rc|hChild].
        -- apply IH. lia.
        -- rewrite IH by lia. rewrite push_packaged_eq.
           by rewrite <- app_assoc.
  - apply lookup_ge_None in He. rewrite drop_ge by done. simpl.
    by rewrite app_nil_r.
Qed.

Local Transparent enum_nonpackaged.

(** The enumeration of a whole key, as [LoadConsentStore] runs it. *)
Lemma enumerate_nonpackaged_all hNp out :
  enumerate_nonpackaged hNp out =
  Some (out ++ flat_map (desktop_child hNp) (key_subkeys hNp)).
Proof.
  unfold enumerate_nonpackaged. rewrite enum_nonpackaged_spec by lia.
  by rewrite drop_0.
Qed.

Lemma enumerate_base_all hBase :
  enumerate_base hBase = Some (flat_map (base_child hBase) (key_subkeys hBase)).
Proof.
  unfold enumerate_base. rewrite enum_base_spec by lia. by rewrite drop_0.
Qed.

(** More fuel does not change what a loop returns. *)
Lemma enum_base_fuel fuel hBase :
  (length (key_subkeys hBase) < fuel)%nat →
  enum_base fuel hBase 0 [] = enumerate_base hBase.
Proof.
  intros. rewrite enumerate_base_all, enum_base_spec by lia. by rewrite drop_0.
Qed.

(** Enumerating at the position of a child reports that child. *)
Lemma RegEnumKeyExW_middle hKey pre e post cchName :
  key_subkeys hKey = pre ++ e :: post →
  RegEnumKeyExW hKey (length pre) cchName = enum_entry cchName e.
Proof.
  intros Hsub. unfold RegEnumKeyExW. by rewrite Hsub, list_lookup_middle.
Qed.

(** Bring the rows of a whole enumeration to the form: rows of the
    children before [e], rows of [e], rows of the children after. *)
Ltac at_child Hsub Hrr :=
  rewrite (RegEnumKeyExW_middle _ _ _ _ _ Hsub) in Hrr;
  rewrite ?enumerate_base_all, ?enumerate_nonpackaged_all, Hsub, flat_map_app;
  simpl.

(** ** The comparator and the contract of [std::sort] *)

Lemma row_le_key a b : row_le a b ↔ key_le (sort_key a) (sort_key b).
Proof.
  unfold row_le, key_le, row_before, bool_gt, sort_key. simpl.
  destruct (activeNow a), (activeNow b); simpl;
    rewrite ?Z.ltb_ge; intuition congruence.
Qed.

Lemma row_before_key a b :
  row_before a b = true ↔ ¬ key_le (sort_key b) (sort_key a).
Proof.
  rewrite <- row_le_key. unfold row_le. destruct (row_before a b); naive_solver.
Qed.

#[local] Instance key_le_trans : Transitive key_le.
Proof.
  intros [[] x] [[] y] [[] z]; unfold key_le; simpl; intuition (try congruence); lia.
Qed.

#[local] Instance key_le_total : Total key_le.
Proof.
  intros [[] x] [[] y]; unfold key_le; simpl;
    destruct (Z.le_ge_cases x y); intuition (try congruence); lia.
Qed.

#[local] Instance key_le_antisymm : AntiSymm (=) key_le.
Proof.
  intros [[] x] [[] y]; unfold key_le; simpl; intros [? ?] [? ?];
    try (intuition congruence); f_equal; intuition lia.
Qed.

#[local] Instance row_le_trans : Transitive row_le.
Proof. intros a b c. rewrite !row_le_key. apply transitivity. Qed.

#[local] Instance row_le_total : Total row_le.
Proof. intros a b. rewrite !row_le_key. apply total, _. Qed.

#[local] Instance row_le_dec a b : Decision (row_le a b).
Proof. unfold row_le. apply _. Defined.

(** The comparator meets the requirement of [std::sort]. *)
Lemma row_before_strict_weak_order : strict_weak_order row_before.
Proof.
  split.
  - intros a. apply row_le_key. split; [done|lia].
  - intros a b c. rewrite !row_before_key. intros Hab Hbc Hca. apply Hab.
    destruct (total key_le (sort_key b) (sort_key c)); [|done].
    by etrans.
  - intros a b c Hab Hba Hbc Hcb. fold (row_le b a) in Hab. fold (row_le a b) in Hba.
    fold (row_le c b) in Hbc. fold (row_le b c) in Hcb.
    split; [change (row_le c a)|change (row_le a c)]; by etrans.
Qed.

Lemma sorted_wrt_StronglySorted {A} (comp : A → A → bool) l :
  (∀ a, comp a a = false) →
  sorted_wrt comp l ↔ StronglySorted (fun x y => comp y x = false) l.
Proof.
  intros Hirr. induction l as [|x l IH].
  - split; [constructor|]. intros _ i j a b _ Hi. by rewrite lookup_nil in Hi.
  - split.
    + intros Hs. constructor.
      * apply IH. intros i j a b Hij Hi Hj. by apply (Hs (S i) (S j)); [lia|..].
      * apply Forall_lookup. intros j y Hj. by apply (Hs 0%nat (S j)); [lia|..].
    + intros [Hl Hx]%StronglySorted_inv i j a b Hij Hi Hj.
      destruct i as [|i], j as [|j]; simpl in *; simplify_eq; [done| |lia|].
      * rewrite Forall_lookup in Hx. by eapply Hx.
      * apply IH in Hl. by apply (Hl i j); [lia|..].
Qed.

Lemma sorted_rows l : sorted_wrt row_before l ↔ StronglySorted row_le l.
Proof.
  apply sorted_wrt_StronglySorted, row_before_strict_weak_order.
Qed.

(** The contract can always be met: every range has a sorted
    rearrangement. *)
Lemma std_sort_post_exists input :
  ∃ output, std_sort_post row_before input output.
Proof.
  exists (merge_sort row_le input). split.
  - by rewrite merge_sort_Permutation.
  - apply sorted_rows. apply (StronglySorted_merge_sort _).
Qed.


Lemma sorted_two_key_ordered l : sorted_wrt row_before l → two_key_ordered l.
Proof.
  intros Hs i j a b Hij Hi Hj.
  assert (row_le a b) as Hab by (apply (Hs i j); [lia|done..]).
  apply row_le_key in Hab. exact Hab.
Qed.

(** Two neighbours with the same key may change places. *)
Lemma sorted_swap_equal_keys l1 a b l2 :
  sort_key a = sort_key b →
  StronglySorted row_le (l1 ++ a :: b :: l2) →
  StronglySorted row_le (l1 ++ b :: a :: l2).
Proof.
  intros Hk. rewrite !StronglySorted_app, !StronglySorted_cons.
  intros (Hcross & Hl1 & (Hab & Ha)%Forall_cons & Hb & Hl2).
  split_and!; [|done| |done..].
  - intros x1 x2 ? Hx2. apply Hcross; [done|].
    rewrite !elem_of_cons in Hx2 |- *. tauto.
  - constructor.
    + apply row_le_key. rewrite Hk. apply row_le_key. unfold row_le.
      apply row_before_strict_weak_order.
    + done.
Qed.

(** The keys of a sorted rearrangement do not depend on the
    rearrangement. *)
Lemma sorted_keys_unique (out1 out2 : list CamRow) :
  out1 ≡ₚ out2 →
  StronglySorted row_le out1 → StronglySorted row_le out2 →
  sort_key <$> out1 = sort_key <$> out2.
Proof.
  intros Hp H1 H2. apply (StronglySorted_unique key_le).
  - eapply StronglySorted_fmap; [|exact H1]. intros x y. by rewrite row_le_key.
  - eapply StronglySorted_fmap; [|exact H2]. intros x y. by rewrite row_le_key.
  - by rewrite Hp.
Qed.

(** ** The list view *)

Lemma ListView_InsertItem_end hList pszText :
  ListView_InsertItem hList (length hList) pszText =
  (hList ++ [[pszText; []; []; []; []; []]], length hList).
Proof.
  unfold ListView_InsertItem. rewrite Nat.min_id.
  by rewrite firstn_all, drop_all.
Qed.

Lemma ListView_SetItemText_last hList item iSubItem pszText :
  ListView_SetItemText (hList ++ [item]) (length hList) iSubItem pszText =
  hList ++ [<[iSubItem := pszText]> item].
Proof.
  unfold ListView_SetItemText. rewrite alter_app_r_alt by lia.
  by rewrite Nat.sub_diag.
Qed.

Local Opaque ListView_InsertItem ListView_SetItemText.
#[local] Arguments render : simpl never.

Section ListViewFacts.
Context `{Win32Time}.

Lemma render_total r : is_Some (render r).
Proof.
  unfold render.
  destruct (FtToLocalString_total (startFt r)) as [s ->].
  destruct (FtToLocalString_total (stopFt r)) as [t ->]. by eexists.
Qed.

(** The loop appends, in order, the lines of the rows it lets through. *)
Lemma populate_loop_spec src currentOnly hList :
  populate_loop src currentOnly (length hList) hList =
  (hList ++.) <$> mapM render (shown currentOnly src).
Proof.
  revert hList. induction src as [|r src IH]; intros hList.
  - simpl. by rewrite app_nil_r.
  - simpl. destruct (currentOnly && negb (activeNow r)) eqn:Hskip; simpl.
    + apply IH.
    + rewrite ListView_InsertItem_end. unfold render at 2.
      destruct (FtToLocalString (startFt r)) as [startS|]; simpl; [|done].
      destruct (FtToLocalString (stopFt r)) as [stopS|]; simpl; [|done].
      rewrite !ListView_SetItemText_last. simpl.
      replace (S (length hList)) with (length (hList ++ [row_line r startS stopS]))
        by (rewrite length_app; simpl; lia).
      rewrite IH. destruct (mapM render (shown currentOnly src)); simpl; [|done].
      by rewrite <- app_assoc.
Qed.

Lemma ListView_Populate_spec hList src currentOnly :
  ListView_Populate hList src currentOnly = mapM render (shown currentOnly src).
Proof.
  unfold ListView_Populate, ListView_DeleteAllItems.
  change 0%nat with (length (@nil (list (list Z)))).
  rewrite (populate_loop_spec src currentOnly []).
  by destruct (mapM render _).
Qed.

Lemma mapM_render_total rows :
  ∃ items, mapM render rows = Some items ∧ Forall2 shows rows items.
Proof.
  destruct (mapM render rows) as [items|] eqn:E.
  - exists items. split; [done|]. by apply mapM_Some in E.
  - exfalso. apply mapM_None in E. apply Exists_exists in E as (r & _ & Hr).
    destruct (render_total r) as [? ?]. congruence.
Qed.

Lemma shows_active r item : shows r item → active_line item = activeNow r.
Proof.
  unfold shows, render. intros Hr.
  destruct (FtToLocalString (startFt r)); simpl in Hr; [|done].
  destruct (FtToLocalString (stopFt r)); simpl in Hr; [|done].
  injection Hr as <-. unfold active_line, row_line. simpl.
  by destruct (activeNow r).
Qed.

(** The lines of the active rows are the active lines, in place. *)
Lemma shows_filter_active rows all cur :
  Forall2 shows rows all →
  Forall2 shows (List.filter activeNow rows) cur →
  cur = List.filter active_line all.
Proof.
  intros Hall. revert cur. induction Hall as [|r item rows all Hr Hall IH];
    intros cur Hcur; simpl in *.
  - by inversion Hcur.
  - rewrite (shows_active _ _ Hr). destruct (activeNow r).
    + inversion Hcur as [|? item' ? cur' Hr' Hcur']; subst.
      unfold shows in *. f_equal; [congruence|]. by apply IH.
    + by apply IH.
Qed.
End ListViewFacts.

Lemma list_filter_sublist {A} (f : A → bool) l : List.filter f l `sublist_of` l.
Proof.
  induction l as [|x l IH]; simpl; [constructor|].
  destruct (f x); by constructor.
Qed.

(** ** The loader as a whole *)

Lemma desktop_child_origin hNp e r : r ∈ desktop_child hNp e → row_origin r.
Proof.
  unfold desktop_child. destruct (enum_entry 1024 e) as [|n2]; [by intros ?%elem_of_nil|].
  destruct (RegOpenKeyExW hNp n2); [by intros ?%elem_of_nil|].
  intros ->%list_elem_of_singleton. left. eauto.
Qed.

Lemma base_child_origin hBase e r : r ∈ base_child hBase e → row_origin r.
Proof.
  unfold base_child.
  destruct (enum_entry 512 e) as [|subkey]; [by intros ?%elem_of_nil|].
  destruct (_wcsicmp subkey (L "NonPackaged") =? 0).
  - destruct (RegOpenKeyExW hBase (L "NonPackaged")) as [|hNp];
      [by intros ?%elem_of_nil|].
    intros Hr. apply list_elem_of_In, in_flat_map in Hr as (e' & _ & Hr).
    apply list_elem_of_In in Hr. by eapply desktop_child_origin.
  - destruct (RegOpenKeyExW hBase subkey); [by intros ?%elem_of_nil|].
    intros ->%list_elem_of_singleton. right. eauto.
Qed.

(** Every row the loader returns was built by one of its two blocks. *)
Lemma LoadConsentStore_origin hkcu out0 out r :
  LoadConsentStore hkcu out0 out → r ∈ out → row_origin r.
Proof.
  intros [rc Hopen|hBase rows out' Hopen Henum [Hperm _]] Hr.
  - by apply elem_of_nil in Hr.
  - rewrite enumerate_base_all in Henum. injection Henum as <-.
    rewrite <- Hperm in Hr.
    apply list_elem_of_In, in_flat_map in Hr as (e & _ & Hr).
    apply list_elem_of_In in Hr. by eapply base_child_origin.
Qed.

(** The loader returns for every state of the registry. *)
Lemma LoadConsentStore_total hkcu out0 : ∃ out, LoadConsentStore hkcu out0 out.
Proof.
  destruct (RegOpenKeyExW hkcu REG_WEBCAM_BASE) as [rc|hBase] eqn:Hopen.
  - exists []. by eapply Load_no_store.
  - destruct (std_sort_post_exists (flat_map (base_child hBase) (key_subkeys hBase)))
      as [out Hout].
    exists out. eapply Load_sorted; [done|apply enumerate_base_all|done].
Qed.

Lemma hkcu_with_open webcam :
  RegOpenKeyExW (hkcu_with webcam) REG_WEBCAM_BASE =
  if key_read webcam then inr webcam else inl ERROR_ACCESS_DENIED.
Proof. reflexivity. Qed.

(** Loading a store whose enumeration is [rows] may return any sorted
    rearrangement [out] of [rows]. *)
Lemma load_hkcu_with webcam rows out out0 :
  key_read webcam = true →
  flat_map (base_child webcam) (key_subkeys webcam) = rows →
  rows ≡ₚ out → StronglySorted row_le out →
  LoadConsentStore (hkcu_with webcam) out0 out.
Proof.
  intros Hread Hrows Hperm Hsorted.
  eapply (Load_sorted _ _ webcam rows).
  - by rewrite hkcu_with_open, Hread.
  - by rewrite enumerate_base_all, Hrows.
  - split; [done|]. by apply sorted_rows.
Qed.

Lemma sample_rows_sorted : StronglySorted row_le sample_rows.
Proof. repeat constructor. Qed.

Lemma sample_load out0 : LoadConsentStore (hkcu_with sample_webcam) out0 sample_rows.
Proof.
  by apply (load_hkcu_with _ sample_rows); [..|apply sample_rows_sorted].
Qed.

(** ** The sample store, run *)

Example sample_desktop_row :
  desktop_row (L "C:#app.exe") 50 80 =
  {| kind := L "Desktop"; app := L "app.exe"; exe := L "C:\app.exe";
     activeNow := false; startFt := 50; stopFt := 80 |}.
Proof. reflexivity. Qed.

Example sample_enumeration : enumerate_base sample_webcam = Some sample_rows.
Proof. reflexivity. Qed.

Example faulty_enumeration : enumerate_base faulty_webcam = Some faulty_rows.
Proof. reflexivity. Qed.

Example sample_list_view :
  @ListView_Populate sample_clock [] sample_rows true =
  Some [[L "Packaged"; L "App1"; []; L "Yes"; L "2024-01-18 09:30:05"; []]].
Proof. reflexivity. Qed.

Example LeafName_mixed_separators : LeafName (L "C:\dir/a.exe") = L "a.exe".
Proof. reflexivity. Qed.

Example wide_year : fmt_u 4 (WORD_of 30827) = L "30827".
Proof. reflexivity. Qed.

(** * The claims *)

(** C1.  The [activeNow] flag of a row is set exactly when the start
    timestamp is not zero and the stop timestamp is zero.  This holds for
    the rows of both kinds as they are built, and so for every row that
    [LoadConsentStore] returns, where the timestamps are the ones the row
    carries. *)
Theorem activeNow_iff_started_not_stopped :
  (∀ n2 start stop,
     activeNow (desktop_row n2 start stop) = true ↔ start ≠ 0 ∧ stop = 0) ∧
  (∀ subkey start stop,
     activeNow (packaged_row subkey start stop) = true ↔ start ≠ 0 ∧ stop = 0) ∧
  (∀ hkcu out0 out r,
     LoadConsentStore hkcu out0 out → r ∈ out →
     (activeNow r = true ↔ startFt r ≠ 0 ∧ stopFt r = 0)).
Proof.
  assert (∀ start stop,
    negb (start =? 0) && (stop =? 0) = true ↔ start ≠ 0 ∧ stop = 0) as Hflag.
  { intros start stop. rewrite andb_true_iff, negb_true_iff, Z.eqb_neq, Z.eqb_eq.
    done. }
  split_and!.
  - intros. apply Hflag.
  - intros. apply Hflag.
  - intros hkcu out0 out r Hload Hr.
    destruct (LoadConsentStore_origin _ _ _ _ Hload Hr)
      as [(? & ? & ? & ->)|(? & ? & ? & ->)]; apply Hflag.
Qed.

Lemma activeNow_iff_started_not_stopped_witness :
  LoadConsentStore (hkcu_with sample_webcam) [] sample_rows ∧
  packaged_row (L "App1") 100 0 ∈ sample_rows ∧
  (activeNow (packaged_row (L "App1") 100 0) = true ↔
   startFt (packaged_row (L "App1") 100 0) ≠ 0 ∧
   stopFt (packaged_row (L "App1") 100 0) = 0).
Proof.
  assert (packaged_row (L "App1") 100 0 ∈ sample_rows) as Hin by (left).
  split_and!; [apply sample_load|exact Hin|].
  exact (proj2 (proj2 activeNow_iff_started_not_stopped)
           (hkcu_with sample_webcam) [] sample_rows _ (sample_load []) Hin).
Defined.

(** C3.  For a Desktop record, whose identity [n2] is the name of a
    registry key, decoding (every ['#'] becomes the path separator) and
    encoding again (every path separator becomes ['#']) gives back
    [n2]. *)
Theorem desktop_identity_round_trip n2 start stop :
  key_name n2 →
  encode_path (exe (desktop_row n2 start stop)) = n2.
Proof.
  intros Hname. simpl. unfold encode_path.
  apply ReplaceAll_inverse. by right.
Qed.

Lemma desktop_identity_round_trip_witness :
  key_name (L "C:#Program Files#Cam#cam.exe") ∧
  encode_path (exe (desktop_row (L "C:#Program Files#Cam#cam.exe") 50 80)) =
  L "C:#Program Files#Cam#cam.exe".
Proof.
  assert (key_name (L "C:#Program Files#Cam#cam.exe")) as Hname.
  { unfold key_name. apply (bool_decide_unpack _). vm_compute. exact I. }
  split; [exact Hname|].
  exact (desktop_identity_round_trip _ 50 80 Hname).
Defined.

(** C7.  A Packaged row shows the key name as [app] and has an empty
    [exe].  A Desktop row has the decoded path as [exe]: the text of the
    key name, character by character, with a path separator wherever the
    name has ['#'] and the character of the name everywhere else.  Its
    [app] is the final component of that path: the text after the last
    separator. *)
Theorem row_identity_fields :
  (∀ subkey start stop,
     let r := packaged_row subkey start stop in
     kind r = L "Packaged" ∧ app r = subkey ∧ exe r = [] ∧
     startFt r = start ∧ stopFt r = stop) ∧
  (∀ n2 start stop,
     let r := desktop_row n2 start stop in
     kind r = L "Desktop" ∧
     length (exe r) = length n2 ∧
     (∀ (i : nat) c, n2 !! i = Some c →
        (c = ch_hash → exe r !! i = Some ch_backslash) ∧
        (c ≠ ch_hash → exe r !! i = Some c)) ∧
     final_component (exe r) (app r) ∧
     startFt r = start ∧ stopFt r = stop).
Proof.
  split.
  - intros. by split_and!.
  - intros n2 start stop. cbv zeta. split_and!; try done.
    + simpl. apply ReplaceAll_length.
    + intros i c Hc. simpl. rewrite ReplaceAll_lookup, Hc. simpl. split.
      * intros ->. by rewrite Z.eqb_refl.
      * intros Hne. apply Z.eqb_neq in Hne. by rewrite Hne.
    + apply LeafName_spec.
Qed.

Lemma row_identity_fields_witness :
  L "C:#app.exe" !! 2%nat = Some ch_hash ∧
  exe (desktop_row (L "C:#app.exe") 50 80) !! 2%nat = Some ch_backslash ∧
  L "C:#app.exe" !! 3%nat = Some 97 ∧
  exe (desktop_row (L "C:#app.exe") 50 80) !! 3%nat = Some 97.
Proof.
  destruct (proj2 row_identity_fields (L "C:#app.exe") 50 80)
    as (_ & _ & Hexe & _).
  split_and!; [reflexivity| |reflexivity|].
  - exact (proj1 (Hexe 2%nat ch_hash eq_refl) eq_refl).
  - exact (proj2 (Hexe 3%nat 97 eq_refl) ltac:(discriminate)).
Defined.

(** C10.  In a Desktop row the [exe] text holds no ['#'] (each one of the
    stored name has become a path separator) and the [app] text holds no
    separator, neither ['\\'] nor ['/'].  This is so for the row as it is
    built and for every Desktop row that [LoadConsentStore] returns. *)
Theorem desktop_row_marker_free :
  (∀ n2 start stop,
     (ch_hash ∉ exe (desktop_row n2 start stop)) ∧
     Forall (fun c => ¬ is_sep c) (app (desktop_row n2 start stop))) ∧
  (∀ hkcu out0 out r,
     LoadConsentStore hkcu out0 out → r ∈ out → kind r = L "Desktop" →
     (ch_hash ∉ exe r) ∧ Forall (fun c => ¬ is_sep c) (app r)).
Proof.
  assert (∀ n2 start stop,
     (ch_hash ∉ exe (desktop_row n2 start stop)) ∧
     Forall (fun c => ¬ is_sep c) (app (desktop_row n2 start stop))) as Hrow.
  { intros. simpl. split; [by apply ReplaceAll_removes|apply LeafName_no_sep]. }
  split; [exact Hrow|].
  intros hkcu out0 out r Hload Hr Hkind.
  destruct (LoadConsentStore_origin _ _ _ _ Hload Hr)
    as [(? & ? & ? & ->)|(? & ? & ? & ->)]; [apply Hrow|done].
Qed.

Lemma desktop_row_marker_free_witness :
  LoadConsentStore (hkcu_with sample_webcam) [] sample_rows ∧
  desktop_row (L "C:#app.exe") 50 80 ∈ sample_rows ∧
  kind (desktop_row (L "C:#app.exe") 50 80) = L "Desktop" ∧
  (ch_hash ∉ exe (desktop_row (L "C:#app.exe") 50 80)) ∧
  Forall (fun c => ¬ is_sep c) (app (desktop_row (L "C:#app.exe") 50 80)).
Proof.
  assert (desktop_row (L "C:#app.exe") 50 80 ∈ sample_rows) as Hin
    by (right; left).
  split_and!; [apply sample_load|exact Hin|reflexivity|..];
    apply (proj2 desktop_row_marker_free
             (hkcu_with sample_webcam) [] sample_rows _ (sample_load []) Hin eq_refl).
Defined.

(** C6.  When the base key cannot be opened, [LoadConsentStore] returns,
    and what it returns is the empty collection: the rows held before the
    call are gone.  Rendering an empty collection gives an empty list
    view, whatever the filter. *)
Theorem unavailable_store_is_empty hkcu out0 rc :
  RegOpenKeyExW hkcu REG_WEBCAM_BASE = inl rc →
  LoadConsentStore hkcu out0 [] ∧
  (∀ out, LoadConsentStore hkcu out0 out → out = []) ∧
  (∀ (os : Win32Time) hList currentOnly,
     ListView_Populate hList [] currentOnly = Some []).
Proof.
  intros Hopen. split_and!.
  - by eapply Load_no_store.
  - intros out [rc' _|hBase rows out' Hopen' _ _]; [done|congruence].
  - done.
Qed.

Lemma unavailable_store_is_empty_witness :
  RegOpenKeyExW (mkRegKey true [] []) REG_WEBCAM_BASE = inl ERROR_FILE_NOT_FOUND ∧
  LoadConsentStore (mkRegKey true [] []) sample_rows [] ∧
  (∀ out, LoadConsentStore (mkRegKey true [] []) sample_rows out → out = []) ∧
  (∀ (os : Win32Time) hList currentOnly,
     ListView_Populate hList [] currentOnly = Some []).
Proof.
  split; [reflexivity|].
  exact (unavailable_store_is_empty (mkRegKey true [] []) sample_rows
           ERROR_FILE_NOT_FOUND eq_refl).
Defined.



(** The contract of [std::sort] by itself.  What the input determines is
    the sequence of keys (activeNow, startFt) of the output; two
    neighbouring rows with the same key may stand in either order, both
    arrangements meet the contract. *)
Lemma sort_fixes_keys_not_rows input out1 :
  std_sort_post row_before input out1 →
  (∀ out2, std_sort_post row_before input out2 →
           sort_key <$> out2 = sort_key <$> out1) ∧
  (∀ l1 a b l2, out1 = l1 ++ a :: b :: l2 → sort_key a = sort_key b →
                std_sort_post row_before input (l1 ++ b :: a :: l2)).
Proof.
  intros [Hperm1 Hsorted1]. split.
  - intros out2 [Hperm2 Hsorted2]. apply sorted_keys_unique.
    + by rewrite <- Hperm2.
    + by apply sorted_rows.
    + by apply sorted_rows.
  - intros l1 a b l2 -> Hkey. split.
    + rewrite Hperm1. apply Permutation_app_head, perm_swap.
    + apply sorted_rows, sorted_swap_equal_keys; [done|]. by apply sorted_rows.
Qed.

Lemma idle_rows_sorted : StronglySorted row_le idle_rows.
Proof. repeat constructor. Qed.

Lemma sort_fixes_keys_not_rows_witness :
  std_sort_post row_before idle_rows idle_rows ∧
  std_sort_post row_before idle_rows (reverse idle_rows).
Proof.
  assert (std_sort_post row_before idle_rows idle_rows) as Hpost.
  { split; [reflexivity|]. apply sorted_rows, idle_rows_sorted. }
  split; [exact Hpost|].
  exact (proj2 (sort_fixes_keys_not_rows idle_rows idle_rows Hpost)
           [] _ _ [] eq_refl eq_refl).
Defined.

(** ** The library's sort on short collections *)

Section InsertionFacts.
Context {A : Type} (comp : A → A → bool).






End InsertionFacts.












(** C5.  [ListView_Populate] always completes.  Without the filter the
    list view shows every row, in order; with it the list view shows the
    active rows, in order, and nothing else.  The filtered content is a
    subsequence of the unfiltered one: its lines whose Active column
    reads "Yes". *)
Theorem current_only_is_subsequence `{Win32Time} hList (src : list CamRow) :
  ∃ all cur,
    ListView_Populate hList src false = Some all ∧
    ListView_Populate hList src true = Some cur ∧
    Forall2 shows src all ∧
    Forall2 shows (List.filter activeNow src) cur ∧
    cur `sublist_of` all ∧
    cur = List.filter active_line all.
Proof.
  assert (shown false src = src) as Hall.
  { unfold shown. simpl. induction src as [|r src IH]; simpl; by f_equal. }
  assert (shown true src = List.filter activeNow src) as Hcur.
  { unfold shown. simpl. apply filter_ext. intros r. by rewrite negb_involutive. }
  destruct (mapM_render_total src) as (all & Eall & Hshows_all).
  destruct (mapM_render_total (List.filter activeNow src)) as (cur & Ecur & Hshows_cur).
  exists all, cur.
  assert (cur = List.filter active_line all) as Hfilter
    by (by eapply shows_filter_active).
  split_and!; try done.
  - by rewrite ListView_Populate_spec, Hall.
  - by rewrite ListView_Populate_spec, Hcur.
  - rewrite Hfilter. apply list_filter_sublist.
Qed.

(** C8.  A child that fails does not stop the enumeration.  When the
    enumeration call fails for a child, or the child cannot be opened, the
    loop returns the rows of the children before it followed by the rows
    of the children after it.  A child that opens always adds its row, and
    a timestamp that cannot be read is 0 in that row.  The same holds one
    level down, for the children of [NonPackaged]. *)
Theorem enumeration_skips_failed_children :
  (∀ hBase pre e post rc,
     key_subkeys hBase = pre ++ e :: post →
     RegEnumKeyExW hBase (length pre) 512 = inl rc →
     enumerate_base hBase =
     Some (flat_map (base_child hBase) pre ++ flat_map (base_child hBase) post)) ∧
  (∀ hBase pre e post subkey rc,
     key_subkeys hBase = pre ++ e :: post →
     RegEnumKeyExW hBase (length pre) 512 = inr subkey →
     RegOpenKeyExW hBase
       (if _wcsicmp subkey (L "NonPackaged") =? 0 then L "NonPackaged" else subkey)
       = inl rc →
     enumerate_base hBase =
     Some (flat_map (base_child hBase) pre ++ flat_map (base_child hBase) post)) ∧
  (∀ hBase pre e post subkey hChild,
     key_subkeys hBase = pre ++ e :: post →
     RegEnumKeyExW hBase (length pre) 512 = inr subkey →
     _wcsicmp subkey (L "NonPackaged") ≠ 0 →
     RegOpenKeyExW hBase subkey = inr hChild →
     enumerate_base hBase =
     Some (flat_map (base_child hBase) pre ++
           [packaged_row subkey (qword_or_zero hChild (L "LastUsedTimeStart"))
                                (qword_or_zero hChild (L "LastUsedTimeStop"))] ++
           flat_map (base_child hBase) post)) ∧
  (∀ hNp out pre e post rc,
     key_subkeys hNp = pre ++ e :: post →
     RegEnumKeyExW hNp (length pre) 1024 = inl rc →
     enumerate_nonpackaged hNp out =
     Some (out ++ flat_map (desktop_child hNp) pre ++
                  flat_map (desktop_child hNp) post)) ∧
  (∀ hNp out pre e post n2 rc,
     key_subkeys hNp = pre ++ e :: post →
     RegEnumKeyExW hNp (length pre) 1024 = inr n2 →
     RegOpenKeyExW hNp n2 = inl rc →
     enumerate_nonpackaged hNp out =
     Some (out ++ flat_map (desktop_child hNp) pre ++
                  flat_map (desktop_child hNp) post)) ∧
  (∀ hNp out pre e post n2 hItem,
     key_subkeys hNp = pre ++ e :: post →
     RegEnumKeyExW hNp (length pre) 1024 = inr n2 →
     RegOpenKeyExW hNp n2 = inr hItem →
     enumerate_nonpackaged hNp out =
     Some (out ++ flat_map (desktop_child hNp) pre ++
           [desktop_row n2 (qword_or_zero hItem (L "LastUsedTimeStart"))
                           (qword_or_zero hItem (L "LastUsedTimeStop"))] ++
           flat_map (desktop_child hNp) post)) ∧
  (∀ hKey valueName rc,
     RegGetValueW_qword hKey valueName = inl rc →
     RegGetQword hKey valueName 0 = (false, 0) ∧
     qword_or_zero hKey valueName = 0).
Proof.
  split_and!.
  - intros hBase pre e post rc Hsub Hrr. at_child Hsub Hrr.
    unfold base_child at 2. by rewrite Hrr.
  - intros hBase pre e post subkey rc Hsub Hrr Hopen. at_child Hsub Hrr.
    unfold base_child at 2. rewrite Hrr.
    destruct (_wcsicmp subkey (L "NonPackaged") =? 0); by rewrite Hopen.
  - intros hBase pre e post subkey hChild Hsub Hrr Hnp Hopen. at_child Hsub Hrr.
    unfold base_child at 2. rewrite Hrr.
    apply Z.eqb_neq in Hnp. by rewrite Hnp, Hopen.
  - intros hNp out pre e post rc Hsub Hrr. at_child Hsub Hrr.
    unfold desktop_child at 2. by rewrite Hrr.
  - intros hNp out pre e post n2 rc Hsub Hrr Hopen. at_child Hsub Hrr.
    unfold desktop_child at 2. by rewrite Hrr, Hopen.
  - intros hNp out pre e post n2 hItem Hsub Hrr Hopen. at_child Hsub Hrr.
    unfold desktop_child at 2. by rewrite Hrr, Hopen.
  - intros hKey valueName rc Hget. unfold RegGetQword, qword_or_zero.
    by rewrite Hget.
Qed.

Lemma enumeration_skips_failed_children_witness :
  enumerate_base faulty_webcam = Some faulty_rows ∧
  enumerate_nonpackaged faulty_nonpackaged [] =
    Some [desktop_row (L "C:#Tools#cam.exe") 0 40] ∧
  RegGetQword nostop_key (L "LastUsedTimeStop") 0 = (false, 0).
Proof.
  destruct enumeration_skips_failed_children
    as (Henum & Hopen & Hrow & Henum2 & Hopen2 & Hrow2 & Hvalue).
  pose proof (Henum faulty_webcam [locked_child] long_child
    [(L "NoStop", nostop_key); (L "nonpackaged", faulty_nonpackaged);
     (L "App1", usage 100 0)] ERROR_MORE_DATA eq_refl eq_refl) as W1.
  pose proof (Hopen faulty_webcam [] locked_child
    [long_child; (L "NoStop", nostop_key); (L "nonpackaged", faulty_nonpackaged);
     (L "App1", usage 100 0)] (L "Locked") ERROR_ACCESS_DENIED
    eq_refl eq_refl eq_refl) as W2.
  pose proof (Hrow faulty_webcam [locked_child; long_child] (L "NoStop", nostop_key)
    [(L "nonpackaged", faulty_nonpackaged); (L "App1", usage 100 0)]
    (L "NoStop") nostop_key eq_refl eq_refl ltac:(vm_compute; discriminate)
    eq_refl) as W3.
  pose proof (Henum2 faulty_nonpackaged [] [locked_exe] long_exe
    [(L "C:#Tools#cam.exe", cam_key)] ERROR_MORE_DATA eq_refl eq_refl) as W4.
  pose proof (Hopen2 faulty_nonpackaged [] [] locked_exe
    [long_exe; (L "C:#Tools#cam.exe", cam_key)] (L "C:#locked.exe")
    ERROR_ACCESS_DENIED eq_refl eq_refl eq_refl) as W5.
  pose proof (Hrow2 faulty_nonpackaged [] [locked_exe; long_exe]
    (L "C:#Tools#cam.exe", cam_key) [] (L "C:#Tools#cam.exe") cam_key
    eq_refl eq_refl eq_refl) as W6.
  pose proof (Hvalue nostop_key (L "LastUsedTimeStop") ERROR_FILE_NOT_FOUND
    eq_refl) as [W7 _].
  split_and!; [exact W1|exact W6|exact W7].
Defined.

Section Timestamps.
Context `{Win32Time}.

(** C9.  [FtToLocalString] returns a string for every value and never
    stops the refresh.  Zero gives the empty string.  A value that is not
    zero gives the empty string when either conversion fails, and
    otherwise the local time in the format of the source, which for a
    calendar time with a four-digit year reads YYYY-MM-DD HH:MM:SS.  A
    row whose start and stop are both zero is shown with both timestamp
    columns empty. *)
Theorem timestamp_formatting_total ft :
  is_Some (FtToLocalString ft) ∧
  (ft = 0 → FtToLocalString ft = Some []) ∧
  (ft ≠ 0 → FileTimeToSystemTime (ftUtc_of ft) = None →
   FtToLocalString ft = Some []) ∧
  (∀ stUtc, ft ≠ 0 → FileTimeToSystemTime (ftUtc_of ft) = Some stUtc →
   SystemTimeToTzSpecificLocalTime stUtc = None →
   FtToLocalString ft = Some []) ∧
  (∀ stUtc stLocal, ft ≠ 0 →
   FileTimeToSystemTime (ftUtc_of ft) = Some stUtc →
   SystemTimeToTzSpecificLocalTime stUtc = Some stLocal →
   FtToLocalString ft = Some (format_systemtime stLocal) ∧
   (calendar_time stLocal → timestamp_text (format_systemtime stLocal))) ∧
  (∀ r, startFt r = 0 → stopFt r = 0 →
   FtToLocalString (startFt r) = Some [] ∧
   FtToLocalString (stopFt r) = Some [] ∧
   ∀ hList, ListView_Populate hList [r] false = Some [row_line r [] []]).
Proof.
  split_and!.
  - apply FtToLocalString_total.
  - by intros ->.
  - intros Hft%Z.eqb_neq Hconv. unfold FtToLocalString. rewrite Hft.
    fold (ftUtc_of ft). by rewrite Hconv.
  - intros stUtc Hft%Z.eqb_neq Hconv Hlocal. unfold FtToLocalString.
    rewrite Hft. fold (ftUtc_of ft). by rewrite Hconv, Hlocal.
  - intros stUtc stLocal Hft%Z.eqb_neq Hconv Hlocal. split.
    + unfold FtToLocalString. rewrite Hft. fold (ftUtc_of ft).
      rewrite Hconv, Hlocal. apply swprintf_s_fits, format_systemtime_fits.
    + apply format_calendar_time.
  - intros r Hstart Hstop. rewrite Hstart, Hstop. split_and!; [done..|].
    intros hList. rewrite ListView_Populate_spec. simpl.
    unfold render. by rewrite Hstart, Hstop.
Qed.
End Timestamps.

Lemma timestamp_formatting_total_witness :
  @FtToLocalString sample_clock 0 = Some [] ∧
  @FtToLocalString sample_clock (2 ^ 63) = Some [] ∧
  @FtToLocalString sample_clock 133500000000000000 = Some (L "2024-01-18 09:30:05") ∧
  timestamp_text (L "2024-01-18 09:30:05") ∧
  @ListView_Populate sample_clock [] [packaged_row (L "App1") 0 0] false =
    Some [[L "Packaged"; L "App1"; []; L "No"; []; []]].
Proof.
  pose proof (@timestamp_formatting_total sample_clock 0)
    as (_ & Hzero & _).
  pose proof (@timestamp_formatting_total sample_clock (2 ^ 63))
    as (_ & _ & Hfail & _).
  pose proof (@timestamp_formatting_total sample_clock 133500000000000000)
    as (_ & _ & _ & _ & Hok & _).
  pose proof (@timestamp_formatting_total sample_clock 0)
    as (_ & _ & _ & _ & _ & Hrow).
  destruct (Hok (mkSYSTEMTIME 2024 1 4 18 9 30 5 0) (mkSYSTEMTIME 2024 1 4 18 9 30 5 0)
              ltac:(discriminate) eq_refl eq_refl) as [Htext Hshape].
  destruct (Hrow (packaged_row (L "App1") 0 0) eq_refl eq_refl) as (_ & _ & Hline).
  split_and!.
  - exact (Hzero eq_refl).
  - exact (Hfail ltac:(discriminate) eq_refl).
  - exact Htext.
  - apply Hshape. unfold calendar_time. simpl. lia.
  - exact (Hline []).
Defined.

Lemma timestamp_text_length s : timestamp_text s → length s = 19%nat.
Proof.
  intros (YYYY & MM & DD & hh & mm & ss & -> &
          [HY _] & [HM _] & [HD _] & [Hh _] & [Hm _] & [Hs _]).
  rewrite !length_app, HY, HM, HD, Hh, Hm, Hs. reflexivity.
Qed.

(** C9 as it is written fails.  For a viewer on UTC the largest value
    [FileTimeToSystemTime] accepts, 2^63 - 1, falls in the year 30828;
    [FtToLocalString] renders it with a year of five digits, which is not
    a text of the form YYYY-MM-DD HH:MM:SS. *)
Lemma five_digit_year_text :
  FileTimeToSystemTime (Win32Time := utc_viewer) (ftUtc_of (2 ^ 63 - 1)) =
    Some (mkSYSTEMTIME 30828 9 4 14 2 48 5 477) ∧
  @FtToLocalString utc_viewer (2 ^ 63 - 1) = Some (L "30828-09-14 02:48:05") ∧
  ¬ timestamp_text (L "30828-09-14 02:48:05").
Proof.
  split_and!; [reflexivity|reflexivity|].
  intros Hshape%timestamp_text_length. discriminate Hshape.
Qed.

(** * Further properties of the code *)

(** ** Strings and timestamps *)

(** X1.  [ReplaceAll] keeps the length of the string, and substituting
    back gives the string again exactly when it held no [to] to begin with
    (or the two characters are the same). *)
Theorem ReplaceAll_round_trip_iff s from to :
  length (ReplaceAll s from to) = length s ∧
  (ReplaceAll (ReplaceAll s from to) to from = s ↔ from = to ∨ to ∉ s).
Proof. split; [apply ReplaceAll_length|apply ReplaceAll_inverse]. Qed.

Lemma LeafName_suffix path : LeafName path `suffix_of` path.
Proof.
  unfold LeafName, substr. destruct (find_last_of path (L "\/")); [|done].
  apply suffix_drop.
Qed.

Lemma LeafName_fixed path :
  LeafName path = path ↔ Forall (fun c => ¬ is_sep c) path.
Proof.
  split.
  - intros <-. apply LeafName_no_sep.
  - intros Hno. unfold LeafName.
    destruct (find_last_of path (L "\/")) as [pos|] eqn:E; [|done].
    apply find_last_of_Some in E as (c & Hpath & Hc%elem_of_seps & _).
    rewrite Forall_forall in Hno. exfalso. apply (Hno c); [|done].
    rewrite Hpath. apply elem_of_app. right. by left.
Qed.

(** X2.  [LeafName] returns a suffix of the path; it returns the path
    itself exactly when the path holds no separator; and applying it twice
    is the same as applying it once. *)
Theorem LeafName_suffix_idempotent path :
  LeafName path `suffix_of` path ∧
  (LeafName path = path ↔ Forall (fun c => ¬ is_sep c) path) ∧
  LeafName (LeafName path) = LeafName path.
Proof.
  split_and!; [apply LeafName_suffix|apply LeafName_fixed|].
  apply LeafName_fixed, LeafName_no_sep.
Qed.

(** X3.  Two children of [NonPackaged] with different names never yield
    the same [exe]: on key names the decoding is one to one. *)
Theorem desktop_exe_injective n1 n2 start1 stop1 start2 stop2 :
  key_name n1 → key_name n2 →
  exe (desktop_row n1 start1 stop1) = exe (desktop_row n2 start2 stop2) →
  n1 = n2.
Proof.
  intros H1 H2 Heq. simpl in Heq.
  assert (∀ n, key_name n →
    ReplaceAll (ReplaceAll n ch_hash ch_backslash) ch_backslash ch_hash = n) as Hback.
  { intros n Hn. apply ReplaceAll_inverse. by right. }
  by rewrite <- (Hback n1 H1), <- (Hback n2 H2), Heq.
Qed.

Lemma desktop_exe_injective_witness :
  key_name (L "C:#app.exe") ∧
  exe (desktop_row (L "C:#app.exe") 50 80) = exe (desktop_row (L "C:#app.exe") 7 0) ∧
  L "C:#app.exe" = L "C:#app.exe".
Proof.
  assert (key_name (L "C:#app.exe")) as Hname.
  { unfold key_name. apply (bool_decide_unpack _). vm_compute. exact I. }
  split_and!; [exact Hname|reflexivity|].
  exact (desktop_exe_injective _ _ 50 80 7 0 Hname Hname eq_refl).
Defined.

(** X4.  The two [DWORD]s that [FtToLocalString] stores in the [FILETIME]
    are in range and together hold the 64-bit value: nothing is lost in the
    split. *)
Theorem FILETIME_halves_hold_value ft :
  0 <= ft < 2 ^ 64 →
  0 <= dwLowDateTime (ftUtc_of ft) < 2 ^ 32 ∧
  0 <= dwHighDateTime (ftUtc_of ft) < 2 ^ 32 ∧
  dwLowDateTime (ftUtc_of ft) + 2 ^ 32 * dwHighDateTime (ftUtc_of ft) = ft.
Proof.
  intros Hft. split; [|split]; [| |by apply ftUtc_of_whole];
    unfold ftUtc_of, DWORD_of; simpl; apply Z.mod_pos_bound; lia.
Qed.

Lemma FILETIME_halves_hold_value_witness :
  dwLowDateTime (ftUtc_of 133500000000000000) +
  2 ^ 32 * dwHighDateTime (ftUtc_of 133500000000000000) = 133500000000000000.
Proof.
  exact (proj2 (proj2 (FILETIME_halves_hold_value 133500000000000000
                         ltac:(split; [discriminate|reflexivity])))).
Defined.

Lemma fmt_u_length_ge width n : (width <= length (fmt_u width n))%nat.
Proof. unfold fmt_u. rewrite length_app, length_replicate. lia. Qed.

Lemma format_systemtime_length st :
  (19 <= length (format_systemtime st) <= 35)%nat.
Proof.
  unfold format_systemtime. rewrite !length_app.
  pose proof (fmt_u_WORD_length 4 (wYear st)).
  pose proof (fmt_u_WORD_length 2 (wMonth st)).
  pose proof (fmt_u_WORD_length 2 (wDay st)).
  pose proof (fmt_u_WORD_length 2 (wHour st)).
  pose proof (fmt_u_WORD_length 2 (wMinute st)).
  pose proof (fmt_u_WORD_length 2 (wSecond st)).
  pose proof (fmt_u_length_ge 4 (WORD_of (wYear st))).
  pose proof (fmt_u_length_ge 2 (WORD_of (wMonth st))).
  pose proof (fmt_u_length_ge 2 (WORD_of (wDay st))).
  pose proof (fmt_u_length_ge 2 (WORD_of (wHour st))).
  pose proof (fmt_u_length_ge 2 (WORD_of (wMinute st))).
  pose proof (fmt_u_length_ge 2 (WORD_of (wSecond st))).
  change (length (L "-")) with 1%nat. change (length (L " ")) with 1%nat.
  change (length (L ":")) with 1%nat. lia.
Qed.

(** X5.  Whatever the six [WORD]s of the [SYSTEMTIME] are, the text
    [swprintf_s] is asked to write has between 19 and 35 characters, so
    with its terminator it fits the buffer of 64 and the call succeeds. *)
Theorem timestamp_text_fits_buffer st :
  (19 <= length (format_systemtime st) <= 35)%nat ∧
  swprintf_s 64 (format_systemtime st) = Some (format_systemtime st).
Proof.
  pose proof (format_systemtime_length st).
  split; [done|]. apply swprintf_s_fits. lia.
Qed.

(** X6.  [FtToLocalString] returns a text that is not empty exactly when
    the value is not zero and both conversions succeed: an empty column
    means "zero or not convertible", and nothing else does. *)
Theorem timestamp_blank_iff `{Win32Time} ft s :
  FtToLocalString ft = Some s →
  (s ≠ [] ↔
   ft ≠ 0 ∧ ∃ stUtc stLocal,
     FileTimeToSystemTime (ftUtc_of ft) = Some stUtc ∧
     SystemTimeToTzSpecificLocalTime stUtc = Some stLocal ∧
     s = format_systemtime stLocal).
Proof.
  unfold FtToLocalString. fold (ftUtc_of ft).
  destruct (Z.eqb_spec ft 0) as [->|Hft].
  { intros [= <-]. split; [done|]. by intros [? _]. }
  destruct (FileTimeToSystemTime (ftUtc_of ft)) as [stUtc|].
  2:{ intros [= <-]. split; [done|]. by intros (_ & ? & ? & ? & _). }
  destruct (SystemTimeToTzSpecificLocalTime stUtc) as [stLocal|] eqn:Hlocal.
  2:{ intros [= <-]. split; [done|].
      intros (_ & ? & ? & [= <-] & ? & _). congruence. }
  rewrite swprintf_s_fits by apply format_systemtime_fits. intros [= <-]. split.
  - intros _. split; [done|]. by exists stUtc, stLocal.
  - intros _ Hnil. pose proof (format_systemtime_length stLocal) as Hlen.
    rewrite Hnil in Hlen. simpl in Hlen. lia.
Qed.

Lemma timestamp_blank_iff_witness :
  @FtToLocalString sample_clock 133500000000000000 = Some (L "2024-01-18 09:30:05") ∧
  L "2024-01-18 09:30:05" ≠ [].
Proof.
  split; [reflexivity|].
  apply (proj2 (@timestamp_blank_iff sample_clock 133500000000000000 _ eq_refl)).
  split; [discriminate|].
  exists (mkSYSTEMTIME 2024 1 4 18 9 30 5 0), (mkSYSTEMTIME 2024 1 4 18 9 30 5 0).
  split_and!; reflexivity.
Defined.

(** ** The sort *)

(** X7.  The comparator is a strict weak ordering, which is what
    [std::sort] requires of it: no row precedes itself, precedence is
    transitive, and so is being unordered either way. *)
Theorem comparator_strict_weak_order : strict_weak_order row_before.
Proof. exact row_before_strict_weak_order. Qed.

Lemma NoDup_fmap_eq {A B} (f : A → B) (l : list A) x y :
  NoDup (f <$> l) → x ∈ l → y ∈ l → f x = f y → x = y.
Proof.
  induction l as [|a l IH]; simpl; [by intros _ ?%elem_of_nil|].
  intros [Ha Hl]%NoDup_cons [->|Hx]%elem_of_cons [->|Hy]%elem_of_cons Hf; auto.
  - exfalso. apply Ha. rewrite Hf. by apply list_elem_of_fmap_2.
  - exfalso. apply Ha. rewrite <- Hf. by apply list_elem_of_fmap_2.
Qed.

(** X8.  When no two rows of the collection agree on both [activeNow] and
    [startFt], the contract of [std::sort] leaves one output only: the
    result of the sort is then fully determined. *)
Theorem sort_unique_on_distinct_keys input out1 out2 :
  NoDup (sort_key <$> input) →
  std_sort_post row_before input out1 →
  std_sort_post row_before input out2 →
  out1 = out2.
Proof.
  intros Hkeys [Hperm1 Hsorted1] [Hperm2 Hsorted2].
  apply (StronglySorted_unique_strong row_le).
  - intros x1 x2 Hx1 Hx2 H12 H21.
    rewrite <- Hperm1 in Hx1. rewrite <- Hperm2 in Hx2.
    apply (NoDup_fmap_eq sort_key input); [done..|].
    apply row_le_key in H12, H21. by apply (anti_symm key_le).
  - by apply sorted_rows.
  - by apply sorted_rows.
  - by rewrite <- Hperm1.
Qed.

Lemma sort_unique_on_distinct_keys_witness :
  NoDup (sort_key <$> reverse sample_rows) ∧
  std_sort_post row_before (reverse sample_rows) sample_rows ∧
  sample_rows = sample_rows.
Proof.
  assert (NoDup (sort_key <$> reverse sample_rows)) as Hkeys.
  { apply (bool_decide_unpack _). vm_compute. exact I. }
  assert (std_sort_post row_before (reverse sample_rows) sample_rows) as Hpost.
  { split; [apply perm_swap|]. apply sorted_rows, sample_rows_sorted. }
  split_and!; [exact Hkeys|exact Hpost|].
  exact (sort_unique_on_distinct_keys _ _ _ Hkeys Hpost Hpost).
Defined.

Lemma list_filter_length_Permutation {A} (f : A → bool) l1 l2 :
  l1 ≡ₚ l2 → length (List.filter f l1) = length (List.filter f l2).
Proof.
  induction 1 as [|x l1 l2 _ IH|x y l|l1 l2 l3 _ IH1 _ IH2]; simpl.
  - done.
  - destruct (f x); simpl; by rewrite IH.
  - by destruct (f x), (f y).
  - by rewrite IH1.
Qed.

Lemma sorted_active_first l :
  StronglySorted row_le l →
  l = List.filter activeNow l ++ List.filter (fun r => negb (activeNow r)) l.
Proof.
  induction 1 as [|x l Hl IH Hx]; simpl; [done|].
  destruct (activeNow x) eqn:Hact; simpl; [by f_equal|].
  assert (Forall (fun y => activeNow y = false) l) as Hidle.
  { eapply Forall_impl; [exact Hx|]. intros y Hxy. apply row_le_key in Hxy.
    destruct Hxy as [Hxy _]. simpl in Hxy. rewrite Hact in Hxy.
    destruct (activeNow y); [by specialize (Hxy eq_refl)|done]. }
  assert (List.filter activeNow l = []) as ->.
  { clear -Hidle. induction Hidle as [|y l Hy _ IH]; simpl; [done|]. by rewrite Hy. }
  simpl. f_equal.
  clear -Hidle. induction Hidle as [|y l Hy _ IH]; simpl; [done|].
  rewrite Hy. simpl. by f_equal.
Qed.

(** X9.  After the sort the active rows are the first rows of the
    collection: what [ListView_Populate] shows with the filter on is the
    sorted collection cut after as many rows as there are active ones. *)
Theorem current_only_is_prefix input output :
  std_sort_post row_before input output →
  shown true output = take (length (List.filter activeNow input)) output.
Proof.
  intros [Hperm Hsorted%sorted_rows].
  assert (shown true output = List.filter activeNow output) as ->.
  { unfold shown. simpl. apply filter_ext. intros r. by rewrite negb_involutive. }
  rewrite (list_filter_length_Permutation _ _ _ Hperm).
  rewrite (sorted_active_first output Hsorted) at 3.
  by rewrite take_app_length.
Qed.

Lemma current_only_is_prefix_witness :
  std_sort_post row_before (reverse sample_rows) sample_rows ∧
  shown true sample_rows = [packaged_row (L "App1") 100 0].
Proof.
  assert (std_sort_post row_before (reverse sample_rows) sample_rows) as Hpost.
  { split; [apply perm_swap|]. apply sorted_rows, sample_rows_sorted. }
  split; [exact Hpost|].
  exact (current_only_is_prefix _ _ Hpost).
Defined.

(** ** The enumeration and the loader *)

Lemma enum_entry_inr cch e name : enum_entry cch e = inr name → name = e.1.
Proof. unfold enum_entry. case_decide; [|done]. by intros [= <-]. Qed.

Lemma enum_entry_short cch e : (length e.1 < cch)%nat → enum_entry cch e = inr e.1.
Proof. intros. unfold enum_entry. by case_decide. Qed.

Lemma base_child_of_store hBase e r :
  e ∈ key_subkeys hBase → r ∈ base_child hBase e → row_of_store hBase r.
Proof.
  intros He. unfold base_child.
  destruct (enum_entry 512 e) as [|subkey] eqn:Ee; [by intros ?%elem_of_nil|].
  apply enum_entry_inr in Ee as ->.
  destruct (Z.eqb_spec (_wcsicmp e.1 (L "NonPackaged")) 0) as [Hnp|Hnp].
  - destruct (RegOpenKeyExW hBase (L "NonPackaged")) as [|hNp] eqn:Hopen;
      [by intros ?%elem_of_nil|].
    intros Hr. apply list_elem_of_In, in_flat_map in Hr as (e' & He' & Hr).
    apply list_elem_of_In in He', Hr. unfold desktop_child in Hr.
    destruct (enum_entry 1024 e') as [|n2] eqn:Ee'; [by apply elem_of_nil in Hr|].
    apply enum_entry_inr in Ee' as ->.
    destruct (RegOpenKeyExW hNp e'.1) as [|hItem] eqn:Hitem;
      [by apply elem_of_nil in Hr|].
    apply list_elem_of_singleton in Hr as ->.
    right. by exists hNp, e', hItem.
  - destruct (RegOpenKeyExW hBase e.1) as [|hChild] eqn:Hopen;
      [by intros ?%elem_of_nil|].
    intros ->%list_elem_of_singleton. left. by exists e, hChild.
Qed.

Lemma LoadConsentStore_rows hkcu hBase out0 out :
  RegOpenKeyExW hkcu REG_WEBCAM_BASE = inr hBase →
  LoadConsentStore hkcu out0 out →
  flat_map (base_child hBase) (key_subkeys hBase) ≡ₚ out.
Proof.
  intros Hopen [rc Hfail|hBase' rows out' Hopen' Henum [Hperm _]]; [congruence|].
  assert (hBase' = hBase) as -> by congruence.
  rewrite enumerate_base_all in Henum. by injection Henum as <-.
Qed.

(** X11.  No row is made up.  Every row [LoadConsentStore] returns was
    read from a key of the store: a Packaged row from a child of the base
    key that opens and whose name is not "NonPackaged" in any letter case,
    a Desktop row from a child of the opened [NonPackaged] key; its
    timestamps are the values of that key, 0 where a value cannot be
    read. *)
Theorem rows_come_from_keys hkcu hBase out0 out r :
  RegOpenKeyExW hkcu REG_WEBCAM_BASE = inr hBase →
  LoadConsentStore hkcu out0 out → r ∈ out →
  row_of_store hBase r.
Proof.
  intros Hopen Hload Hr.
  rewrite <- (LoadConsentStore_rows _ _ _ _ Hopen Hload) in Hr.
  apply list_elem_of_In, in_flat_map in Hr as (e & He & Hr).
  apply list_elem_of_In in He, Hr. by eapply base_child_of_store.
Qed.

Lemma sample_open : RegOpenKeyExW (hkcu_with sample_webcam) REG_WEBCAM_BASE = inr sample_webcam.
Proof. reflexivity. Qed.

Lemma rows_come_from_keys_witness :
  row_of_store sample_webcam (desktop_row (L "C:#app.exe") 50 80).
Proof.
  exact (rows_come_from_keys (hkcu_with sample_webcam) sample_webcam [] sample_rows
           (desktop_row (L "C:#app.exe") 50 80) sample_open (sample_load [])
           ltac:(right; left)).
Defined.

(** X12.  No readable key is dropped.  A child of the base key that can
    be enumerated and opened, and is not the [NonPackaged] key, has its
    Packaged row in the result; when [NonPackaged] is enumerated and
    opens, each of its children that can be enumerated and opened has its
    Desktop row in the result. *)
Theorem readable_keys_have_rows hkcu hBase out0 out :
  RegOpenKeyExW hkcu REG_WEBCAM_BASE = inr hBase →
  LoadConsentStore hkcu out0 out →
  (∀ e hChild,
     e ∈ key_subkeys hBase → (length e.1 < 512)%nat →
     _wcsicmp e.1 (L "NonPackaged") ≠ 0 →
     RegOpenKeyExW hBase e.1 = inr hChild →
     packaged_row e.1 (qword_or_zero hChild (L "LastUsedTimeStart"))
                      (qword_or_zero hChild (L "LastUsedTimeStop")) ∈ out) ∧
  (∀ e0 hNp e hItem,
     e0 ∈ key_subkeys hBase → (length e0.1 < 512)%nat →
     _wcsicmp e0.1 (L "NonPackaged") = 0 →
     RegOpenKeyExW hBase (L "NonPackaged") = inr hNp →
     e ∈ key_subkeys hNp → (length e.1 < 1024)%nat →
     RegOpenKeyExW hNp e.1 = inr hItem →
     desktop_row e.1 (qword_or_zero hItem (L "LastUsedTimeStart"))
                     (qword_or_zero hItem (L "LastUsedTimeStop")) ∈ out).
Proof.
  intros Hopen Hload.
  pose proof (LoadConsentStore_rows _ _ _ _ Hopen Hload) as Hperm.
  split.
  - intros e hChild He Hlen Hnp Hchild. rewrite <- Hperm.
    apply list_elem_of_In, in_flat_map. exists e.
    split; [by apply list_elem_of_In|]. apply list_elem_of_In.
    unfold base_child. rewrite enum_entry_short by done.
    apply Z.eqb_neq in Hnp. rewrite Hnp, Hchild. by left.
  - intros e0 hNp e hItem He0 Hlen0 Hnp Hopen' He Hlen Hitem. rewrite <- Hperm.
    apply list_elem_of_In, in_flat_map. exists e0.
    split; [by apply list_elem_of_In|]. apply list_elem_of_In.
    unfold base_child. rewrite enum_entry_short by done.
    apply Z.eqb_eq in Hnp. rewrite Hnp, Hopen'.
    apply list_elem_of_In, in_flat_map. exists e.
    split; [by apply list_elem_of_In|]. apply list_elem_of_In.
    unfold desktop_child. rewrite enum_entry_short by done.
    rewrite Hitem. by left.
Qed.

Lemma readable_keys_have_rows_witness :
  packaged_row (L "App1") 100 0 ∈ sample_rows ∧
  desktop_row (L "C:#app.exe") 50 80 ∈ sample_rows.
Proof.
  destruct (readable_keys_have_rows (hkcu_with sample_webcam) sample_webcam []
              sample_rows sample_open (sample_load [])) as [Hpackaged Hdesktop].
  split.
  - exact (Hpackaged (L "App1", usage 100 0) (usage 100 0)
             ltac:(left) ltac:(vm_compute; lia) ltac:(vm_compute; discriminate) eq_refl).
  - exact (Hdesktop
             (L "NonPackaged", mkRegKey true [] [(L "C:#app.exe", usage 50 80)])
             (mkRegKey true [] [(L "C:#app.exe", usage 50 80)])
             (L "C:#app.exe", usage 50 80) (usage 50 80)
             ltac:(right; left) ltac:(vm_compute; lia) eq_refl eq_refl
             ltac:(left) ltac:(vm_compute; lia) eq_refl).
Defined.

(** ** The list view and the refresh *)

Lemma shows_six_texts `{Win32Time} r item : shows r item → length item = lv_columns.
Proof.
  unfold shows, render. intros Hr.
  destruct (FtToLocalString (startFt r)); simpl in Hr; [|done].
  destruct (FtToLocalString (stopFt r)); simpl in Hr; [|done].
  by injection Hr as <-.
Qed.

Lemma ListView_Populate_view `{Win32Time} hList src currentOnly :
  ∃ items, ListView_Populate hList src currentOnly = Some items ∧
           view_of src currentOnly items.
Proof.
  rewrite ListView_Populate_spec. apply mapM_render_total.
Qed.

(** X13.  [ListView_Populate] replaces the content of the list view: what
    it leaves does not depend on the items that were there.  It leaves one
    line for each row that passes the filter, so never more lines than
    rows, and every line carries six texts, one for each column. *)
Theorem populate_replaces_content `{Win32Time} hList hList' src currentOnly :
  ListView_Populate hList src currentOnly = ListView_Populate hList' src currentOnly ∧
  ∃ items,
    ListView_Populate hList src currentOnly = Some items ∧
    length items = length (shown currentOnly src) ∧
    (length items <= length src)%nat ∧
    Forall (fun item => length item = lv_columns) items.
Proof.
  split; [by rewrite !ListView_Populate_spec|].
  destruct (ListView_Populate_view hList src currentOnly) as (items & Eitems & Hview).
  exists items. unfold view_of in Hview.
  pose proof (Forall2_length _ _ _ Hview) as Hlen.
  split_and!; [done|done| |].
  - rewrite <- Hlen. unfold shown. apply List.filter_length_le.
  - apply Forall_forall. intros item Hitem.
    apply list_elem_of_lookup in Hitem as [i Hi].
    destruct (Forall2_lookup_r _ _ _ i item Hview Hi) as (r & _ & Hr).
    by eapply shows_six_texts.
Qed.

Lemma LoadConsentStore_sorted hkcu out0 out :
  LoadConsentStore hkcu out0 out → StronglySorted row_le out.
Proof.
  intros [rc _|hBase rows out' _ _ [_ Hsorted]]; [constructor|by apply sorted_rows].
Qed.

Lemma LoadConsentStore_again hkcu a b out1 out2 :
  LoadConsentStore hkcu a out1 → LoadConsentStore hkcu b out2 → out1 ≡ₚ out2.
Proof.
  intros [rc1 H1|h1 rows1 o1 H1 E1 [P1 _]] [rc2 H2|h2 rows2 o2 H2 E2 [P2 _]];
    try congruence; [done|].
  assert (h1 = h2) as -> by congruence.
  assert (rows1 = rows2) as -> by congruence.
  by rewrite <- P1, <- P2.
Qed.

Lemma LoadConsentStore_unavailable hkcu out0 out rc :
  RegOpenKeyExW hkcu REG_WEBCAM_BASE = inl rc →
  LoadConsentStore hkcu out0 out → out = [].
Proof. intros Hfail [rc' _|hBase rows out' Hopen _ _]; [done|congruence]. Qed.

Section Refresh.
Context `{Win32Time}.

Lemma DoRefresh_shows env st st' : DoRefresh env st st' → shows_its_rows st'.
Proof.
  intros [rows items Hload Eitems]. unfold shows_its_rows. simpl.
  split_and!; [| | |done].
  - apply sorted_two_key_ordered, sorted_rows. by eapply LoadConsentStore_sorted.
  - apply Forall_forall. intros r Hr. by eapply LoadConsentStore_origin.
  - exists (check env =? BST_CHECKED).
    destruct (ListView_Populate_view (list_items st) rows (check env =? BST_CHECKED))
      as (items' & Eitems' & Hview).
    congruence.
Qed.

(** X14.  When [DoRefresh] has run, [g_rows] is what [LoadConsentStore]
    returned, the list view shows those rows, filtered exactly when the
    check box reads [BST_CHECKED], and the status bar reads
    "Ready - Bob Paydar".  When the store cannot be opened the rows and the
    list view are both empty, whatever they held before. *)
Theorem refresh_shows_loaded_rows env st st' :
  DoRefresh env st st' →
  LoadConsentStore (hkcu env) (g_rows st) (g_rows st') ∧
  view_of (g_rows st') (check env =? BST_CHECKED) (list_items st') ∧
  status_text st' = L "Ready - Bob Paydar" ∧
  (∀ rc, RegOpenKeyExW (hkcu env) REG_WEBCAM_BASE = inl rc →
         g_rows st' = [] ∧ list_items st' = []).
Proof.
  intros [rows items Hload Eitems]. simpl.
  destruct (ListView_Populate_view (list_items st) rows (check env =? BST_CHECKED))
    as (items' & Eitems' & Hview).
  assert (items' = items) as -> by congruence.
  split_and!; [done..|].
  intros rc Hfail.
  rewrite (LoadConsentStore_unavailable _ _ _ _ Hfail Hload) in Eitems |- *.
  split; [done|]. rewrite ListView_Populate_spec in Eitems. by injection Eitems.
Qed.

(** X15.  A second [DoRefresh] over an unchanged registry and check box
    loads the same rows again, up to the order of rows with equal keys: the
    same rows, the same sequence of keys and as many lines in the list
    view.  When no two rows agree on [activeNow] and [startFt] it leaves
    the state exactly as the first one did. *)
Theorem refresh_again_same_rows env st st1 st2 :
  DoRefresh env st st1 → DoRefresh env st1 st2 →
  g_rows st2 ≡ₚ g_rows st1 ∧
  sort_key <$> g_rows st2 = sort_key <$> g_rows st1 ∧
  length (list_items st2) = length (list_items st1) ∧
  (NoDup (sort_key <$> g_rows st1) → st2 = st1).
Proof.
  intros [rows1 items1 Hload1 Eitems1] [rows2 items2 Hload2 Eitems2].
  simpl in *.
  pose proof (LoadConsentStore_again _ _ _ _ _ Hload2 Hload1) as Hperm.
  pose proof (LoadConsentStore_sorted _ _ _ Hload1) as Hsorted1.
  pose proof (LoadConsentStore_sorted _ _ _ Hload2) as Hsorted2.
  rewrite ListView_Populate_spec in Eitems1, Eitems2.
  pose proof (Forall2_length _ _ _ (mapM_Some_1 _ _ _ Eitems1)) as Hlen1.
  pose proof (Forall2_length _ _ _ (mapM_Some_1 _ _ _ Eitems2)) as Hlen2.
  split_and!; [done|by apply sorted_keys_unique| |].
  - rewrite <- Hlen1, <- Hlen2. unfold shown.
    by apply list_filter_length_Permutation.
  - intros Hkeys.
    assert (rows2 = rows1) as ->.
    { apply (StronglySorted_unique_strong row_le); [|done..].
      intros x1 x2 Hx1 Hx2 H12 H21. rewrite Hperm in Hx1.
      apply (NoDup_fmap_eq sort_key rows1); [done..|].
      apply row_le_key in H12, H21. by apply (anti_symm key_le). }
    assert (items2 = items1) as -> by congruence.
    done.
Qed.
End Refresh.

Lemma sample_refresh st :
  placed st = None → quit_code st = None →
  @DoRefresh sample_clock sample_env st sample_refreshed.
Proof.
  intros Hplaced Hquit.
  pose proof (@DoRefresh_done sample_clock sample_env st sample_rows
    [[L "Packaged"; L "App1"; []; L "Yes"; L "2024-01-18 09:30:05"; []]]
    (sample_load _)) as Hdone.
  rewrite Hplaced, Hquit in Hdone. apply Hdone.
  by rewrite ListView_Populate_spec.
Qed.

Lemma refresh_shows_loaded_rows_witness :
  @DoRefresh sample_clock sample_env new_window sample_refreshed ∧
  @view_of sample_clock sample_rows true (list_items sample_refreshed).
Proof.
  assert (@DoRefresh sample_clock sample_env new_window sample_refreshed) as Hrun
    by (by apply sample_refresh).
  split; [exact Hrun|].
  exact (proj1 (proj2 (@refresh_shows_loaded_rows sample_clock
                         sample_env new_window _ Hrun))).
Defined.

Lemma refresh_again_same_rows_witness :
  @DoRefresh sample_clock sample_env new_window sample_refreshed ∧
  @DoRefresh sample_clock sample_env sample_refreshed sample_refreshed ∧
  length (list_items sample_refreshed) = 1%nat.
Proof.
  assert (@DoRefresh sample_clock sample_env new_window sample_refreshed) as Hrun1
    by (by apply sample_refresh).
  assert (@DoRefresh sample_clock sample_env sample_refreshed sample_refreshed) as Hrun2
    by (by apply sample_refresh).
  split_and!; [exact Hrun1|exact Hrun2|].
  exact (proj1 (proj2 (proj2 (@refresh_again_same_rows sample_clock sample_env
                                new_window _ _ Hrun1 Hrun2)))).
Defined.

(** ** The layout *)

Lemma int_of_small z : - 2 ^ 31 <= z < 2 ^ 31 → int_of z = z.
Proof. intros Hz. unfold int_of. rewrite Z.mod_small; lia. Qed.

(** X16.  For a client area and a status bar of ordinary size
    [ResizeLayout] tiles the height of the window: the top bar of 44 pixels
    holds the button and the check box side by side, the list view starts
    right below it, is as wide as the client area and ends where a status
    bar of the measured height begins.  There is no lower limit: when the
    client area is shorter than the top bar and the status bar together,
    the height passed for the list view is negative. *)
Theorem layout_tiles_client_area rc rcStatus :
  client_rect rc → screen_rect rcStatus →
  at_List (ResizeLayout rc rcStatus) =
    mkPlacement 0 44 (right rc) (bottom rc - 44 - (bottom rcStatus - top rcStatus)) ∧
  Y (at_BtnRefresh (ResizeLayout rc rcStatus)) +
    nHeight (at_BtnRefresh (ResizeLayout rc rcStatus)) <= 44 ∧
  Y (at_ChkCurrent (ResizeLayout rc rcStatus)) +
    nHeight (at_ChkCurrent (ResizeLayout rc rcStatus)) <= 44 ∧
  X (at_BtnRefresh (ResizeLayout rc rcStatus)) +
    nWidth (at_BtnRefresh (ResizeLayout rc rcStatus)) <=
    X (at_ChkCurrent (ResizeLayout rc rcStatus)) ∧
  Y (at_List (ResizeLayout rc rcStatus)) + nHeight (at_List (ResizeLayout rc rcStatus)) +
    (bottom rcStatus - top rcStatus) = bottom rc ∧
  (nHeight (at_List (ResizeLayout rc rcStatus)) < 0 ↔
   bottom rc < 44 + (bottom rcStatus - top rcStatus)).
Proof.
  intros (Hleft & Htop & Hright & Hbottom) (Hst & Hsb).
  assert (2 ^ 29 = 536870912) as E29 by reflexivity.
  assert (2 ^ 30 = 1073741824) as E30 by reflexivity.
  assert (2 ^ 31 = 2147483648) as E31 by reflexivity.
  unfold ResizeLayout. cbv zeta.
  change (int_of (28 + int_of (8 * 2))) with 44.
  change (int_of (int_of (8 + 100) + 10)) with 118.
  change (int_of (8 + 2)) with 10.
  rewrite (int_of_small (bottom rcStatus - top rcStatus)) by lia.
  rewrite (int_of_small (bottom rc - 44)) by lia.
  rewrite (int_of_small (bottom rc - 44 - _)) by lia.
  rewrite (int_of_small (right rc - left rc)) by lia.
  rewrite Hleft, Z.sub_0_r. simpl. split_and!; try done; lia.
Qed.

Lemma layout_tiles_client_area_witness :
  client_rect (rcClient sample_env) ∧ screen_rect (rcStatus sample_env) ∧
  at_List (ResizeLayout (rcClient sample_env) (rcStatus sample_env)) =
    mkPlacement 0 44 964 455.
Proof.
  assert (client_rect (rcClient sample_env)) as Hrc.
  { unfold client_rect. simpl. lia. }
  assert (screen_rect (rcStatus sample_env)) as Hsb.
  { unfold screen_rect. simpl. lia. }
  split_and!; [exact Hrc|exact Hsb|].
  exact (proj1 (layout_tiles_client_area _ _ Hrc Hsb)).
Defined.

(** ** The window procedure *)

Section Window.
Context `{Win32Time}.

Lemma WndProc_keeps env st msg wParam st' res :
  WndProc env st msg wParam st' res →
  msg ≠ WM_CREATE → shows_its_rows st → shows_its_rows st'.
Proof.
  intros [st'' Hmsg Hrefresh| Hmsg |st'' Hmsg Hid Hrefresh|Hmsg Hid1 Hid2|Hmsg
         |Hm1 Hm2 Hm3 Hm4] Hcreate Hinv; try done.
  by eapply DoRefresh_shows.
Qed.

(** X17.  From the moment [WM_CREATE] has been handled, and after every
    later message whatever it is, the rows the window holds are in the
    order of the sort, the list view shows exactly these rows, all of them
    or the active ones, and the status bar reads "Ready - Bob Paydar". *)
Theorem window_always_shows_its_rows st :
  window_state st → shows_its_rows st.
Proof.
  induction 1 as [env st wParam st' res Hstep|env st msg wParam st' res _ IH Hstep].
  - inversion Hstep as [st'' Hmsg Hrefresh| Hmsg |st'' Hmsg Hid Hrefresh
                       |Hmsg Hid1 Hid2|Hmsg|Hm1 Hm2 Hm3 Hm4]; subst;
      try discriminate; [by eapply DoRefresh_shows|done].
  - destruct (decide (msg = WM_CREATE)) as [->|Hmsg].
    + inversion Hstep as [st'' Hmsg Hrefresh| Hmsg |st'' Hmsg Hid Hrefresh
                         |Hmsg Hid1 Hid2|Hmsg|Hm1 Hm2 Hm3 Hm4]; subst;
        try discriminate; [by eapply DoRefresh_shows|done].
    + by eapply WndProc_keeps.
Qed.
End Window.

Lemma window_always_shows_its_rows_witness :
  @window_state sample_clock sample_created ∧
  @shows_its_rows sample_clock sample_created.
Proof.
  assert (@window_state sample_clock sample_created) as Hstate.
  { apply (@window_created sample_clock sample_env new_window 0 _ (Some 0)).
    apply Wnd_create; [reflexivity|].
    exact (@DoRefresh_done sample_clock sample_env
      {| g_rows := g_rows new_window;
         list_items := ListView_DeleteAllItems [];
         status_text := [];
         placed := Some (ResizeLayout (rcClient sample_env) (rcStatus sample_env));
         quit_code := quit_code new_window |} sample_rows
      [[L "Packaged"; L "App1"; []; L "Yes"; L "2024-01-18 09:30:05"; []]]
      (sample_load _) eq_refl). }
  split; [exact Hstate|].
  exact (@window_always_shows_its_rows sample_clock _ Hstate).
Defined.

(** ** Rows that never started *)

Lemma qword_or_zero_range hKey valueName :
  0 <= qword_or_zero hKey valueName < 2 ^ 64.
Proof.
  unfold qword_or_zero, RegGetValueW_qword.
  destruct (reg_lookup valueName (key_values hKey)) as [[v|]|]; try done.
  apply Z.mod_pos_bound. done.
Qed.

Lemma row_of_store_start hBase r : row_of_store hBase r → 0 <= startFt r < 2 ^ 64.
Proof.
  intros [(e & h & _ & _ & _ & ->)|(hNp & e & h & _ & _ & _ & ->)]; simpl;
    apply qword_or_zero_range.
Qed.

Lemma LoadConsentStore_start_range hkcu out0 out r :
  LoadConsentStore hkcu out0 out → r ∈ out → 0 <= startFt r < 2 ^ 64.
Proof.
  intros Hload Hr.
  destruct Hload as [rc Hfail|hBase rows out Hopen Henum [Hperm Hsorted]];
    [by apply elem_of_nil in Hr|].
  rewrite enumerate_base_all in Henum. injection Henum as <-.
  rewrite <- Hperm in Hr.
  apply list_elem_of_In, in_flat_map in Hr as (e & He & Hr).
  apply list_elem_of_In in He, Hr.
  eapply row_of_store_start. by eapply base_child_of_store.
Qed.

(** X18.  Applications that never used the camera are listed last: in
    what [LoadConsentStore] returns, a row whose start timestamp is zero is
    followed only by rows whose start timestamp is zero, none of them
    active. *)
Theorem never_started_rows_come_last hkcu out0 out (i j : nat) a b :
  LoadConsentStore hkcu out0 out →
  (i < j)%nat → out !! i = Some a → out !! j = Some b →
  startFt a = 0 →
  startFt b = 0 ∧ activeNow b = false.
Proof.
  intros Hload Hij Ha Hb Hzero.
  assert (a ∈ out) as Hina by (by eapply list_elem_of_lookup_2).
  assert (b ∈ out) as Hinb by (by eapply list_elem_of_lookup_2).
  assert (activeNow a = false) as Hidle.
  { destruct (LoadConsentStore_origin _ _ _ _ Hload Hina)
      as [(? & ? & ? & ->)|(? & ? & ? & ->)]; simpl in *; by rewrite Hzero. }
  pose proof (LoadConsentStore_sorted _ _ _ Hload) as Hsorted.
  apply sorted_rows, sorted_two_key_ordered in Hsorted.
  destruct (Hsorted i j a b Hij Ha Hb) as [Hact Hstart].
  assert (activeNow b = false) as Hidleb.
  { destruct (activeNow b); [|done]. rewrite Hact in Hidle; done. }
  split; [|done].
  pose proof (LoadConsentStore_start_range _ _ _ _ Hload Hinb).
  specialize (Hstart ltac:(congruence)). lia.
Qed.

Lemma idle_load out0 : LoadConsentStore (hkcu_with idle_webcam) out0 idle_rows.
Proof.
  by apply (load_hkcu_with _ idle_rows); [..|apply idle_rows_sorted].
Qed.

Lemma never_started_rows_come_last_witness :
  LoadConsentStore (hkcu_with idle_webcam) [] idle_rows ∧
  startFt (packaged_row (L "AppB") 0 0) = 0 ∧
  activeNow (packaged_row (L "AppB") 0 0) = false.
Proof.
  split; [apply idle_load|].
  exact (never_started_rows_come_last (hkcu_with idle_webcam) [] idle_rows 0 1
           (packaged_row (L "AppA") 0 0) (packaged_row (L "AppB") 0 0)
           (idle_load []) ltac:(lia) eq_refl eq_refl eq_refl).
Defined.
